(** * Invariant-ML-Intro: the lexicographic pre-processing [F]

    A shallow embedding of the pre-processing cell of
    [fun_domain_pytorch.ipynb]: [swap_rows], [swap_cols], [greater] and
    [maximise_matrix], followed by the properties stated about them.

    Matrices are two-dimensional numpy arrays.  An array is modelled by its
    shape and its rows; entries are integers (the matrices of the data set are
    integer valued, and the code only ever compares and moves entries).
    Python exceptions are modelled by the [result] type. *)

From Stdlib Require Import ZArith Lia.
From stdpp Require Import base numbers option list.

Open Scope Z_scope.
Open Scope nat_scope.

(** ** Exceptions *)

Inductive exn : Set := IndexError | ValueError.

Inductive result (A : Type) : Type :=
  | Ok (a : A)
  | Raise (e : exn).
Arguments Ok {A} a.
Arguments Raise {A} e.

Global Instance result_ret : MRet result := λ A a, Ok a.
Global Instance result_bind : MBind result := λ A B f r,
  match r with Ok a => f a | Raise e => Raise e end.
Global Instance result_fmap : FMap result := λ A B f r,
  match r with Ok a => Ok (f a) | Raise e => Raise e end.

(** ** Arrays *)

Record ndarray : Type := mk_ndarray {
  shape0 : nat;              (* M.shape[0] *)
  shape1 : nat;              (* M.shape[1] *)
  data : list (list Z)       (* the rows *)
}.

(** A value of [ndarray] is a numpy array when its rows agree with its
    shape; numpy has no other two-dimensional arrays. *)
Definition wf (M : ndarray) : Prop :=
  length (data M) = shape0 M ∧ Forall (λ r, length r = shape1 M) (data M).

Global Instance ndarray_eq_dec : EqDecision ndarray.
Proof. solve_decision. Defined.

Global Instance wf_dec M : Decision (wf M).
Proof. unfold wf. apply _. Defined.

(** [np.reshape(M, -1)]: the row-major reading of the entries. *)
Definition reshape_flat (M : ndarray) : list Z := concat (data M).

(** ** swap_rows and swap_cols *)

(** [v[[i,j]] = v[[j,i]]] on a list: the right-hand side is read first, then
    position [i] and position [j] are written, in this order. *)
Definition swap_list {A} (l : list A) (i j : nat) : list A :=
  match l !! j, l !! i with
  | Some xj, Some xi => <[j := xi]> (<[i := xj]> l)
  | _, _ => l
  end.

(** Indexing past the end of an axis raises [IndexError].  Indices are
    natural numbers, as [range] supplies them in [maximise_matrix]. *)
Definition swap_rows (M : ndarray) (i j : nat) : result ndarray :=
  if decide (i < shape0 M ∧ j < shape0 M)
  then Ok (mk_ndarray (shape0 M) (shape1 M) (swap_list (data M) i j))
  else Raise IndexError.

Definition swap_cols (M : ndarray) (i j : nat) : result ndarray :=
  if decide (i < shape1 M ∧ j < shape1 M)
  then Ok (mk_ndarray (shape0 M) (shape1 M)
             (map (λ r, swap_list r i j) (data M)))
  else Raise IndexError.

(** ** greater *)

(** An elementwise binary operation on two one-dimensional arrays, with
    numpy's broadcasting: equal lengths, or one side of length one;
    anything else raises [ValueError]. *)
Definition broadcast {X} (f : Z → Z → X) (a b : list Z) : result (list X) :=
  if decide (length a = length b) then Ok (zip_with f a b)
  else match a, b with
       | [x], _ => Ok (map (f x) b)
       | _, [y] => Ok (map (λ x, f x y) a)
       | _, _ => Raise ValueError
       end.

(** [(A>B) != (A<B)], then the first index where the mask holds. The
    [IndexError] of an empty [np.where] result is caught and gives [False];
    the later [A[idx]] and [B[idx]] are outside the [try]. *)
Definition greater (A B : ndarray) : result bool :=
  let a := reshape_flat A in
  let b := reshape_flat B in
  gt ← broadcast Z.gtb a b;
  lt ← broadcast Z.ltb a b;
  match list_find (λ m, m = true) (zip_with xorb gt lt) with
  | None => Ok false
  | Some (idx, _) =>
      match a !! idx, b !! idx with
      | Some x, Some y => Ok (Z.gtb x y)
      | _, _ => Raise IndexError
      end
  end.

(** ** maximise_matrix *)

(** [itertools.combinations(l, 2)] *)
Fixpoint combinations2 (l : list nat) : list (nat * nat) :=
  match l with
  | [] => []
  | x :: t => map (pair x) t ++ combinations2 t
  end.

(** A [for] loop whose body may raise. *)
Fixpoint for_each {S X} (body : S → X → result S) (xs : list X) (s : S)
  : result S :=
  match xs with
  | [] => Ok s
  | x :: xs' => s' ← body s x; for_each body xs' s'
  end.

(** The accepted swaps are recorded in a log; the log is never read by the
    loop. *)
Inductive axis : Set := Row | Col.
Definition event : Set := axis * nat * nat.

(** The variables of the [while] body: [M], [max_found], and the log. *)
Definition loop_state : Type := ndarray * bool * list event.

(** The body of either [for] loop. *)
Definition try_swap (swap : ndarray → nat → nat → result ndarray) (ax : axis)
    (st : loop_state) (p : nat * nat) : result loop_state :=
  let '(M, max_found, log) := st in
  S1 ← swap M p.1 p.2;
  g ← greater S1 M;
  if (g : bool) then
    S2 ← swap M p.1 p.2;
    Ok (S2, false, log ++ [(ax, p.1, p.2)])
  else Ok (M, max_found, log).

(** One iteration of the [while] loop. *)
Definition pass (rows cols : nat) (M : ndarray) (log : list event)
  : result loop_state :=
  st ← for_each (try_swap swap_rows Row) (combinations2 (seq 0 rows))
                (M, true, log);
  for_each (try_swap swap_cols Col) (combinations2 (seq 0 cols)) st.

(** The [while not max_found] loop; [fuel] bounds the number of iterations
    and [None] means that the bound was reached. *)
Fixpoint while_not_max_found (fuel rows cols : nat) (M : ndarray)
    (log : list event) : option (result (ndarray * list event)) :=
  match fuel with
  | 0 => None
  | S fuel' =>
      match pass rows cols M log with
      | Raise e => Some (Raise e)
      | Ok (M', true, log') => Some (Ok (M', log'))
      | Ok (M', false, log') => while_not_max_found fuel' rows cols M' log'
      end
  end.

Definition maximise_matrix_log (fuel : nat) (M : ndarray)
  : option (result (ndarray * list event)) :=
  while_not_max_found fuel (shape0 M) (shape1 M) M [].

Definition maximise_matrix (fuel : nat) (M : ndarray)
  : option (result ndarray) :=
  fmap (M := option) (fmap (M := result) fst) (maximise_matrix_log fuel M).

(** [maximise_matrix(M)] returns [out]. *)
Definition returns (M out : ndarray) : Prop :=
  ∃ fuel, maximise_matrix fuel M = Some (Ok out).

Definition mat (r c : nat) (d : list (list Z)) : ndarray := mk_ndarray r c d.

(** The worked example of the notebook for [F], and what the loop reaches. *)
Definition ex_in : ndarray := mat 3 3 [[0;0;0];[0;1;3];[2;1;1]]%Z.
Definition ex_doc : ndarray := mat 3 3 [[3;1;0];[1;1;2];[0;0;0]]%Z.
Definition ex_out : ndarray := mat 3 3 [[2;1;1];[0;3;1];[0;0;0]]%Z.
Definition ex_log : list event := [(Row, 0, 1); (Row, 0, 2); (Row, 1, 2); (Col, 1, 2)].

(** Arrays of shapes 2x3, 3x2, 2x2, 0x3 and 1x1. *)
Definition ex_2x3 : ndarray := mat 2 3 [[1;2;3];[4;5;6]]%Z.
Definition ex_3x2 : ndarray := mat 3 2 [[1;2];[3;4];[5;5]]%Z.
Definition ex_2x2 : ndarray := mat 2 2 [[1;2];[4;5]]%Z.
Definition ex_0x3 : ndarray := mat 0 3 [].
Definition ex_1x1 : ndarray := mat 1 1 [[5]]%Z.


(** ** The lexicographic order in the words of the specification *)

(** Scan both sequences position by position; the first position where they
    differ decides, and [a] is greater when its value there exceeds the value
    of [b]. *)
Fixpoint lex_greater (a b : list Z) : bool :=
  match a, b with
  | x :: a', y :: b' =>
      if decide (x = y) then lex_greater a' b' else (x >? y)%Z
  | _, _ => false
  end.

(** [k] is the first position where [a] and [b] differ, with values [x], [y]. *)
Definition first_difference (a b : list Z) (k : nat) (x y : Z) : Prop :=
  a !! k = Some x ∧ b !! k = Some y ∧ x ≠ y ∧
  ∀ i, i < k → a !! i = b !! i.

(** [M'] is reached from [M] by row swaps and column swaps. *)
Inductive rearrangement : ndarray → ndarray → Prop :=
  | rearr_refl M : rearrangement M M
  | rearr_row M i j S M' :
      swap_rows M i j = Ok S → rearrangement S M' → rearrangement M M'
  | rearr_col M i j S M' :
      swap_cols M i j = Ok S → rearrangement S M' → rearrangement M M'.

(** No single swap along one axis gives a greater array. *)
Definition no_greater_swap (swap : ndarray → nat → nat → result ndarray)
    (n : nat) (M : ndarray) : Prop :=
  ∀ i j, i < n → j < n → ∃ S, swap M i j = Ok S ∧ greater S M = Ok false.

Definition locally_maximal (M : ndarray) : Prop :=
  no_greater_swap swap_rows (shape0 M) M ∧
  no_greater_swap swap_cols (shape1 M) M.

(** How the loop variables can differ after some loop bodies have run: a
    swap was accepted, so the flag is cleared, the array is lexicographically
    greater and the log is longer. *)
Definition improved (st st' : loop_state) : Prop :=
  let '(M, _, log) := st in
  let '(M', max_found', log') := st' in
  max_found' = false ∧
  rearrangement M M' ∧
  lex_greater (reshape_flat M') (reshape_flat M) = true ∧
  ∃ ev, ev ≠ [] ∧ log' = log ++ ev.

(** The number of orderings of the entries [l0] that are lexicographically
    greater than the reading [a]. *)
Definition rank (l0 a : list Z) : nat :=
  length (filter (λ v, lex_greater v a = true) (permutations l0)).

(** ** The same functions on array objects

    The functions above compute with array values.  In Python an array is an
    object, [M.copy()] allocates a new object and an indexed assignment
    writes into an existing one.  The store maps addresses to arrays;
    allocation appends.  A computation takes a store and gives a result and
    a store, or nothing when it reads an address that was never allocated or
    when the fuel of the [while] loop is used up. *)

Module Heap.

Abbreviation loc := nat.
Abbreviation heap := (list ndarray).
Definition st (A : Type) : Type := heap → option (result A * heap).

Global Instance st_ret : MRet st := λ A a h, Some (Ok a, h).
Global Instance st_bind : MBind st := λ A B f m h,
  match m h with
  | Some (Ok a, h') => f a h'
  | Some (Raise e, h') => Some (Raise e, h')
  | None => None
  end.

(** [M.copy()] *)
Definition copy (M : loc) : st loc := λ h,
  match h !! M with
  | Some a => Some (Ok (length h), h ++ [a])
  | None => None
  end.

(** [v[[i,j]] = v[[j,i]]], in place. *)
Definition assign_rows (v : loc) (i j : nat) : st unit := λ h,
  match h !! v with
  | Some a =>
      if decide (i < shape0 a ∧ j < shape0 a)
      then Some (Ok (), <[v := mk_ndarray (shape0 a) (shape1 a)
                                (swap_list (data a) i j)]> h)
      else Some (Raise IndexError, h)
  | None => None
  end.

(** [v[:, [i,j]] = v[:, [j,i]]], in place. *)
Definition assign_cols (v : loc) (i j : nat) : st unit := λ h,
  match h !! v with
  | Some a =>
      if decide (i < shape1 a ∧ j < shape1 a)
      then Some (Ok (), <[v := mk_ndarray (shape0 a) (shape1 a)
                                (map (λ r, swap_list r i j) (data a))]> h)
      else Some (Raise IndexError, h)
  | None => None
  end.

Definition swap_rows (M : loc) (i j : nat) : st loc :=
  v ← copy M;
  _ ← assign_rows v i j;
  mret v.

Definition swap_cols (M : loc) (i j : nat) : st loc :=
  v ← copy M;
  _ ← assign_cols v i j;
  mret v.

(** [greater] only reads its arguments ([np.reshape] gives a view). *)
Definition greater (A B : loc) : st bool := λ h,
  match h !! A, h !! B with
  | Some a, Some b => Some (greater a b, h)
  | _, _ => None
  end.

Fixpoint for_each {S X} (body : S → X → st S) (xs : list X) (s : S) : st S :=
  match xs with
  | [] => mret s
  | x :: xs' => s' ← body s x; for_each body xs' s'
  end.

(** The variables [M] and [max_found]; [M] holds an address. *)
Definition try_swap (swap : loc → nat → nat → st loc)
    (s : loc * bool) (p : nat * nat) : st (loc * bool) :=
  let '(M, max_found) := s in
  S1 ← swap M p.1 p.2;
  g ← greater S1 M;
  if (g : bool) then
    S2 ← swap M p.1 p.2;
    mret (S2, false)
  else mret (M, max_found).

Definition pass (rows cols : nat) (M : loc) : st (loc * bool) :=
  s ← for_each (try_swap swap_rows) (combinations2 (seq 0 rows)) (M, true);
  for_each (try_swap swap_cols) (combinations2 (seq 0 cols)) s.

Fixpoint while_not_max_found (fuel rows cols : nat) (M : loc) : st loc :=
  match fuel with
  | 0 => λ _, None
  | S fuel' =>
      s ← pass rows cols M;
      if (s.2 : bool) then mret s.1
      else while_not_max_found fuel' rows cols s.1
  end.

Definition maximise_matrix (fuel : nat) (M : loc) : st loc := λ h,
  match h !! M with
  | Some a => while_not_max_found fuel (shape0 a) (shape1 a) M h
  | None => None
  end.

End Heap.

(** The value-level and the object-level loop variables after the same loop
    bodies: the store only grew, and either no swap was accepted and [M]
    still holds the same address, or one was and [M] holds an address
    allocated since. *)
Definition stepped (h : Heap.heap) (l : Heap.loc) (log : list event)
    (h' : Heap.heap) (l' : Heap.loc) (log' : list event) : Prop :=
  h `prefix_of` h' ∧
  ((l' = l ∧ log' = log) ∨ (length h ≤ l' ∧ length log < length log')).

(** An object-level outcome [ro], started in store [h] with [M] at address
    [l], agrees with the value-level outcome [rv]. *)
Definition agrees (h : Heap.heap) (l : Heap.loc) (log : list event)
    (rv : result loop_state)
    (ro : option (result (Heap.loc * bool) * Heap.heap)) : Prop :=
  ∃ r h', ro = Some (r, h') ∧
    match rv with
    | Ok (M', max_found', log') =>
        ∃ l', r = Ok (l', max_found') ∧ h' !! l' = Some M' ∧
              stepped h l log h' l' log'
    | Raise e => r = Raise e ∧ h `prefix_of` h'
    end.

(** ** Entries, rows and columns *)

(** [M[r, c]] *)
Definition entry (M : ndarray) (r c : nat) : option Z :=
  data M !! r ≫= (λ l, l !! c).

(** [M[r]] and [M[:, c]] *)
Definition row (M : ndarray) (r : nat) : list Z := default [] (data M !! r).
Definition column (M : ndarray) (c : nat) : list Z :=
  omap (λ l, l !! c) (data M).

(** The transposition of [i] and [j]. *)
Definition transp (i j k : nat) : nat :=
  if decide (k = i) then j else if decide (k = j) then i else k.

(** ** The loop over the data set

    [X_preprocessed = []], then [X_preprocessed += [maximise_matrix(mat)]]
    for every [mat] of [X].  [X] is a three-dimensional array, read here as
    the list of its matrices. *)
Fixpoint preprocess_loop (fuel : nat) (X X_preprocessed : list ndarray)
  : option (result (list ndarray)) :=
  match X with
  | [] => Some (Ok X_preprocessed)
  | mat :: X' =>
      match maximise_matrix fuel mat with
      | None => None
      | Some (Raise e) => Some (Raise e)
      | Some (Ok m) => preprocess_loop fuel X' (X_preprocessed ++ [m])
      end
  end.

Definition preprocess (fuel : nat) (X : list ndarray)
  : option (result (list ndarray)) :=
  preprocess_loop fuel X [].

(** [n] consecutive pieces of width [w]. *)
Fixpoint chunks (w n : nat) (l : list Z) : list (list Z) :=
  match n with
  | 0 => []
  | S n' => take w l :: chunks w n' (drop w l)
  end.

(** [np.array(X)] for a list [X] of two-dimensional arrays, given by its
    entries in row-major order: the arrays are stacked when they all have
    the shape of the first one; a list of arrays of different shapes raises
    [ValueError]. *)
Definition np_array (X : list ndarray) : result (list Z) :=
  match X with
  | [] => Ok []
  | M :: X' =>
      if decide (Forall (λ N, shape0 N = shape0 M ∧ shape1 N = shape1 M) X')
      then Ok (concat (map reshape_flat X))
      else Raise ValueError
  end.

(** [np.array(X).reshape(-1, w)]: the entries of the stacked array, cut into
    rows of width [w]; [ValueError] when the number of entries is no
    multiple of [w]. *)
Definition reshape_rows (w : nat) (X : list ndarray) : result (list (list Z)) :=
  flat ← np_array X;
  if decide (w ≠ 0 ∧ length flat `mod` w = 0)
  then Ok (chunks w (length flat `div` w) flat)
  else Raise ValueError.

(** [np.array(X_preprocessed).reshape(-1,180)] *)
Definition features (X_preprocessed : list ndarray) : result (list (list Z)) :=
  reshape_rows 180 X_preprocessed.

(** Two 12 x 15 matrices: the entries 0 to 179 in reading order, and a
    matrix with entries between 0 and 3. *)
Definition mat_of (r c : nat) (f : nat → nat → Z) : ndarray :=
  mk_ndarray r c (map (λ i, map (f i) (seq 0 c)) (seq 0 r)).
Definition ex_12x15_a : ndarray := mat_of 12 15 (λ i j, Z.of_nat (i * 15 + j)).
Definition ex_12x15_b : ndarray := mat_of 12 15 (λ i j, Z.of_nat ((i * j) `mod` 4)).

(** ** The batches of the training loop *)

(** [range(0, stop, step)]; a zero step raises [ValueError]. *)
Definition py_range_step (stop step : nat) : result (list nat) :=
  if decide (step = 0) then Raise ValueError
  else Ok (map (λ k, k * step) (seq 0 ((stop + step - 1) `div` step))).

(** [l[i:j]] for [0 <= i <= j]. *)
Definition slice {A} (l : list A) (i j : nat) : list A := take (j - i) (drop i l).

(** The pairs [(Xbatch, ybatch)] of one epoch:
    [for i in range(0, len(X), batch_size)], [X[i:i+batch_size]] and
    [y[i:i+batch_size]]. *)
Definition epoch_batches {A B} (X : list A) (y : list B) (batch_size : nat)
  : result (list (list A * list B)) :=
  starts ← py_range_step (length X) batch_size;
  Ok (map (λ i, (slice X i (i + batch_size), slice y i (i + batch_size)))
          starts).

(** A list whose entries do not increase. *)
Definition non_increasing (l : list Z) : Prop :=
  ∀ i j x y, i < j → l !! i = Some x → l !! j = Some y → (y ≤ x)%Z.

(** * Properties *)

(** ** Lists and swaps *)

Section swap_list.
Context {A : Type}.
Implicit Types l : list A.

Lemma swap_list_length l i j : length (swap_list l i j) = length l.
Proof.
  unfold swap_list. destruct (l !! j), (l !! i); try done.
  by rewrite !length_insert.
Qed.

Lemma swap_list_Permutation l i j : swap_list l i j ≡ₚ l.
Proof.
  unfold swap_list.
  destruct (l !! j) as [xj|] eqn:Hj, (l !! i) as [xi|] eqn:Hi; try done.
  by apply Permutation_insert_swap.
Qed.

Lemma swap_list_same l i : swap_list l i i = l.
Proof.
  unfold swap_list. destruct (l !! i) as [x|] eqn:Hi; [|done].
  by rewrite list_insert_insert_eq, list_insert_id.
Qed.

Lemma swap_list_comm l i j : swap_list l i j = swap_list l j i.
Proof.
  unfold swap_list.
  destruct (l !! j) as [xj|] eqn:Hj, (l !! i) as [xi|] eqn:Hi; try done.
  destruct (decide (i = j)) as [->|Hne]; [congruence|].
  by rewrite list_insert_insert_ne.
Qed.

End swap_list.

Lemma concat_Permutation_Forall2 (l k : list (list Z)) :
  Forall2 (≡ₚ) l k → concat l ≡ₚ concat k.
Proof. induction 1; simpl; [done|]. by f_equiv. Qed.

Lemma concat_Permutation (l k : list (list Z)) :
  l ≡ₚ k → concat l ≡ₚ concat k.
Proof.
  induction 1 as [|x l k _ IH|x y l|l k m _ IH1 _ IH2]; simpl.
  - done.
  - by rewrite IH.
  - rewrite !(assoc_L (++)). f_equiv. apply (comm (++)).
  - by rewrite IH1.
Qed.

(** ** Shape and entries under a swap *)

Lemma swap_rows_Ok M i j :
  i < shape0 M → j < shape0 M →
  swap_rows M i j = Ok (mk_ndarray (shape0 M) (shape1 M) (swap_list (data M) i j)).
Proof. intros. unfold swap_rows. by rewrite decide_True. Qed.

Lemma swap_cols_Ok M i j :
  i < shape1 M → j < shape1 M →
  swap_cols M i j =
    Ok (mk_ndarray (shape0 M) (shape1 M) (map (λ r, swap_list r i j) (data M))).
Proof. intros. unfold swap_cols. by rewrite decide_True. Qed.

Lemma swap_rows_inv M i j S :
  swap_rows M i j = Ok S →
  i < shape0 M ∧ j < shape0 M ∧
  S = mk_ndarray (shape0 M) (shape1 M) (swap_list (data M) i j).
Proof. unfold swap_rows. destruct (decide _) as [[??]|]; [|done]. by intros [= <-]. Qed.

Lemma swap_cols_inv M i j S :
  swap_cols M i j = Ok S →
  i < shape1 M ∧ j < shape1 M ∧
  S = mk_ndarray (shape0 M) (shape1 M) (map (λ r, swap_list r i j) (data M)).
Proof. unfold swap_cols. destruct (decide _) as [[??]|]; [|done]. by intros [= <-]. Qed.

Lemma swap_rows_wf M i j S : wf M → swap_rows M i j = Ok S → wf S.
Proof.
  intros [Hlen Hrows] (_ & _ & ->)%swap_rows_inv. split; simpl.
  - by rewrite swap_list_length.
  - by rewrite swap_list_Permutation.
Qed.

Lemma swap_cols_wf M i j S : wf M → swap_cols M i j = Ok S → wf S.
Proof.
  intros [Hlen Hrows] (_ & _ & ->)%swap_cols_inv. split; simpl.
  - by rewrite length_map.
  - apply Forall_map. eapply Forall_impl; [exact Hrows|].
    intros r Hr. simpl. by rewrite swap_list_length.
Qed.

Lemma swap_rows_flat M i j S :
  swap_rows M i j = Ok S → reshape_flat S ≡ₚ reshape_flat M.
Proof.
  intros (_ & _ & ->)%swap_rows_inv. unfold reshape_flat; simpl.
  apply concat_Permutation, swap_list_Permutation.
Qed.

Lemma swap_cols_flat M i j S :
  swap_cols M i j = Ok S → reshape_flat S ≡ₚ reshape_flat M.
Proof.
  intros (_ & _ & ->)%swap_cols_inv. unfold reshape_flat; simpl.
  apply concat_Permutation_Forall2, Forall2_fmap_l, Forall_Forall2_diag.
  apply Forall_forall. intros r _. apply swap_list_Permutation.
Qed.

Lemma swap_rows_same M i : i < shape0 M → swap_rows M i i = Ok M.
Proof.
  intros. rewrite swap_rows_Ok by done. rewrite swap_list_same. by destruct M.
Qed.

Lemma swap_cols_same M i : i < shape1 M → swap_cols M i i = Ok M.
Proof.
  intros. rewrite swap_cols_Ok by done. destruct M as [r c d]; simpl.
  do 2 f_equal. rewrite <-(map_id d) at 2. apply map_ext.
  intros. apply swap_list_same.
Qed.

Lemma swap_rows_comm M i j : swap_rows M i j = swap_rows M j i.
Proof.
  unfold swap_rows. rewrite (swap_list_comm _ i j).
  destruct (decide (i < _ ∧ j < _)), (decide (j < _ ∧ i < _)); try done; lia.
Qed.

Lemma swap_cols_comm M i j : swap_cols M i j = swap_cols M j i.
Proof.
  unfold swap_cols.
  rewrite (map_ext (λ r, swap_list r i j) (λ r, swap_list r j i))
    by (intros; apply swap_list_comm).
  destruct (decide (i < _ ∧ j < _)), (decide (j < _ ∧ i < _)); try done; lia.
Qed.

(** ** The comparator is the lexicographic order *)

Lemma mask_head (x y : Z) : xorb (x >? y)%Z (x <? y)%Z = true ↔ x ≠ y.
Proof.
  rewrite Z.gtb_ltb.
  destruct (Z.ltb_spec y x), (Z.ltb_spec x y); simpl; split; try done; lia.
Qed.

Lemma lex_greater_first_difference a b :
  lex_greater a b = true ↔ ∃ k x y, first_difference a b k x y ∧ (y < x)%Z.
Proof.
  revert b. induction a as [|x a IH]; intros [|y b]; simpl.
  - split; [done|]. by intros (k & ? & ? & (? & _) & _).
  - split; [done|]. by intros (k & ? & ? & (? & _) & _).
  - split; [done|]. by intros (k & ? & ? & (_ & ? & _) & _).
  - case_decide as Hxy.
    + subst y. rewrite IH. split.
      * intros (k & x' & y' & (Ha & Hb & Hne & Hpre) & Hlt).
        exists (S k), x', y'. repeat split; try done.
        intros [|i] Hi; simpl; [done|]. apply Hpre. lia.
      * intros (k & x' & y' & (Ha & Hb & Hne & Hpre) & Hlt).
        destruct k as [|k]; simplify_eq/=.
        exists k, x', y'. repeat split; try done.
        intros i Hi. apply (Hpre (S i)). lia.
    + rewrite Z.gtb_ltb, Z.ltb_lt. split.
      * intros Hlt. exists 0, x, y. repeat split; try done. lia.
      * intros (k & x' & y' & (Ha & Hb & Hne & Hpre) & Hlt).
        destruct k as [|k]; simplify_eq/=; [done|].
        specialize (Hpre 0 ltac:(lia)). simplify_eq/=.
Qed.

Lemma mask_find a b :
  length a = length b →
  match list_find (λ m, m = true)
          (zip_with xorb (zip_with Z.gtb a b) (zip_with Z.ltb a b)) with
  | None => a = b ∧ lex_greater a b = false
  | Some (idx, _) =>
      ∃ x y, a !! idx = Some x ∧ b !! idx = Some y ∧
             lex_greater a b = (x >? y)%Z
  end.
Proof.
  revert b. induction a as [|x a IH]; intros [|y b] Hlen; simplify_eq/=.
  - done.
  - specialize (IH b Hlen). case_decide as Hm.
    + apply mask_head in Hm. exists x, y. repeat split.
      by rewrite decide_False by done.
    + assert (x = y) as ->.
      { destruct (decide (x = y)); [done|]. by apply mask_head in n. }
      rewrite decide_True by done.
      destruct (list_find _ _) as [[idx m]|]; simpl.
      * destruct IH as (x' & y' & ? & ? & ?). by exists x', y'.
      * destruct IH as [-> ?]. done.
Qed.

Lemma greater_lex A B :
  length (reshape_flat A) = length (reshape_flat B) →
  greater A B = Ok (lex_greater (reshape_flat A) (reshape_flat B)).
Proof.
  intros Hlen. unfold greater, broadcast. rewrite !decide_True by done. simpl.
  pose proof (mask_find _ _ Hlen) as Hfind.
  destruct (list_find _ _) as [[idx m]|].
  - destruct Hfind as (x & y & -> & -> & ->). done.
  - by destruct Hfind as [_ ->].
Qed.

(** ** The lexicographic order is a strict order *)

Lemma lex_greater_irrefl a : lex_greater a a = false.
Proof. induction a as [|x a IH]; simpl; [done|]. by rewrite decide_True. Qed.

Lemma lex_greater_trans a b c :
  lex_greater a b = true → lex_greater b c = true → lex_greater a c = true.
Proof.
  revert b c. induction a as [|x a IH]; intros [|y b] [|z c]; simpl; try done.
  destruct (decide (x = y)) as [->|Hxy], (decide (y = z)) as [->|Hyz].
  - apply IH.
  - done.
  - rewrite decide_False by done. done.
  - rewrite !Z.gtb_ltb, !Z.ltb_lt. intros ??.
    rewrite decide_False by lia. apply Z.ltb_lt. lia.
Qed.

(** ** Rearrangements *)

Lemma rearrangement_trans M1 M2 M3 :
  rearrangement M1 M2 → rearrangement M2 M3 → rearrangement M1 M3.
Proof.
  induction 1; intros; [done| |].
  - eapply rearr_row; eauto.
  - eapply rearr_col; eauto.
Qed.

Lemma rearrangement_shape M M' :
  rearrangement M M' → shape0 M' = shape0 M ∧ shape1 M' = shape1 M.
Proof.
  induction 1 as [|M i j S M' Hs _ [IH0 IH1]|M i j S M' Hs _ [IH0 IH1]];
    [done| |].
  - apply swap_rows_inv in Hs as (_ & _ & ->). by rewrite IH0, IH1.
  - apply swap_cols_inv in Hs as (_ & _ & ->). by rewrite IH0, IH1.
Qed.

Lemma rearrangement_wf M M' : rearrangement M M' → wf M → wf M'.
Proof. induction 1; eauto using swap_rows_wf, swap_cols_wf. Qed.

Lemma rearrangement_flat M M' :
  rearrangement M M' → reshape_flat M' ≡ₚ reshape_flat M.
Proof.
  induction 1 as [|M i j S M' Hs _ IH|M i j S M' Hs _ IH]; [done| |].
  - by rewrite IH, (swap_rows_flat _ _ _ _ Hs).
  - by rewrite IH, (swap_cols_flat _ _ _ _ Hs).
Qed.

Lemma greater_rearrangement M M' :
  rearrangement M M' →
  greater M' M = Ok (lex_greater (reshape_flat M') (reshape_flat M)).
Proof. intros H. apply greater_lex. by rewrite (rearrangement_flat _ _ H). Qed.

(** ** The pairs enumerated by the loops *)

Lemma elem_of_combinations2_seq s n i j :
  (i, j) ∈ combinations2 (seq s n) ↔ s ≤ i ∧ i < j ∧ j < s + n.
Proof.
  revert s. induction n as [|n IH]; intros s; simpl.
  - rewrite elem_of_nil. lia.
  - rewrite elem_of_app, IH, list_elem_of_fmap. split.
    + intros [(k & [= -> ->] & Hk%elem_of_seq)|?]; lia.
    + intros (Hs & Hij & Hj). destruct (decide (i = s)) as [->|]; [|right; lia].
      left. exists j. split; [done|]. apply elem_of_seq. lia.
Qed.

(** ** One [for] loop of the [while] body *)

Section phase.
Variable swap : ndarray → nat → nat → result ndarray.
Variable dim : ndarray → nat.
Variable ax : axis.

Hypothesis swap_defined :
  ∀ M i j, i < dim M → j < dim M → ∃ S, swap M i j = Ok S.
Hypothesis swap_rearrangement :
  ∀ M i j S, swap M i j = Ok S → rearrangement M S.
Hypothesis dim_rearrangement :
  ∀ M M', rearrangement M M' → dim M' = dim M.
Hypothesis swap_comm : ∀ M i j, swap M i j = swap M j i.
Hypothesis swap_same : ∀ M i, i < dim M → swap M i i = Ok M.

Lemma try_swap_spec M max_found log p :
  p.1 < dim M → p.2 < dim M →
  ∃ S, swap M p.1 p.2 = Ok S ∧ rearrangement M S ∧
    greater S M = Ok (lex_greater (reshape_flat S) (reshape_flat M)) ∧
    try_swap swap ax (M, max_found, log) p =
      Ok (if lex_greater (reshape_flat S) (reshape_flat M)
          then (S, false, log ++ [(ax, p.1, p.2)])
          else (M, max_found, log)).
Proof.
  intros H1 H2. destruct (swap_defined M _ _ H1 H2) as [S HS].
  pose proof (swap_rearrangement _ _ _ _ HS) as Hr.
  pose proof (greater_rearrangement _ _ Hr) as Hg.
  exists S. repeat split; try done.
  unfold try_swap. rewrite HS. simpl. rewrite Hg. simpl.
  by destruct (lex_greater _ _).
Qed.

(** A loop over pairs none of which is accepted changes nothing. *)
Lemma for_each_rejected xs M max_found log :
  Forall (λ p, ∃ S, swap M p.1 p.2 = Ok S ∧ greater S M = Ok false) xs →
  for_each (try_swap swap ax) xs (M, max_found, log) = Ok (M, max_found, log).
Proof.
  induction 1 as [|p xs (S & HS & Hg) _ IH]; simpl; [done|].
  rewrite HS. simpl. rewrite Hg. simpl. exact IH.
Qed.

(** A loop either rejects every pair and changes nothing, or improves. *)
Lemma for_each_spec n xs M max_found log :
  dim M = n →
  Forall (λ p, p.1 < n ∧ p.2 < n) xs →
  ∃ st', for_each (try_swap swap ax) xs (M, max_found, log) = Ok st' ∧
    ((st' = (M, max_found, log) ∧
      Forall (λ p, ∃ S, swap M p.1 p.2 = Ok S ∧ greater S M = Ok false) xs)
     ∨ improved (M, max_found, log) st').
Proof.
  intros Hdim Hxs. revert M max_found log Hdim.
  induction Hxs as [|p xs [Hp1 Hp2] _ IH]; intros M max_found log Hdim;
    cbn [for_each].
  { eexists. split; [done|]. left. by split. }
  destruct (try_swap_spec M max_found log p) as (S & HS & Hr & Hg & ->);
    [lia..|]. simpl.
  destruct (lex_greater (reshape_flat S) (reshape_flat M)) eqn:Hlex.
  - destruct (IH S false (log ++ [(ax, p.1, p.2)])) as (st' & -> & Hst').
    { rewrite <-Hdim. by apply dim_rearrangement. }
    exists st'. split; [done|]. right.
    destruct Hst' as [[-> _]|Himp].
    + repeat split; try done. eexists. split; [|done]. done.
    + destruct st' as [[M' mf'] log'].
      destruct Himp as (-> & Hr' & Hlex' & ev & _ & ->).
      repeat split.
      * by eapply rearrangement_trans.
      * by eapply lex_greater_trans.
      * exists ((ax, p.1, p.2) :: ev). split; [done|].
        by rewrite <-(assoc_L (++)).
  - destruct (IH M max_found log Hdim) as (st' & -> & Hst').
    exists st'. split; [done|].
    destruct Hst' as [[-> Hall]|Himp]; [left|by right].
    split; [done|]. constructor; [|done]. exists S. by rewrite Hg.
Qed.

(** If every enumerated pair is rejected then no swap at all is accepted. *)
Lemma no_greater_swap_combinations M :
  Forall (λ p, ∃ S, swap M p.1 p.2 = Ok S ∧ greater S M = Ok false)
         (combinations2 (seq 0 (dim M))) →
  no_greater_swap swap (dim M) M.
Proof.
  rewrite Forall_forall. intros Hall i j Hi Hj.
  destruct (Nat.lt_trichotomy i j) as [Hlt|[->|Hlt]].
  - apply (Hall (i, j)). apply elem_of_combinations2_seq. lia.
  - exists M. split; [by apply swap_same|].
    rewrite greater_lex by done. by rewrite lex_greater_irrefl.
  - rewrite swap_comm. apply (Hall (j, i)). apply elem_of_combinations2_seq. lia.
Qed.

Lemma combinations2_no_greater_swap M :
  no_greater_swap swap (dim M) M →
  Forall (λ p, ∃ S, swap M p.1 p.2 = Ok S ∧ greater S M = Ok false)
         (combinations2 (seq 0 (dim M))).
Proof.
  intros Hno. apply Forall_forall. intros [i j] Hij%elem_of_combinations2_seq.
  simpl. apply Hno; lia.
Qed.

Lemma combinations2_in_range n :
  Forall (λ p : nat * nat, p.1 < n ∧ p.2 < n) (combinations2 (seq 0 n)).
Proof.
  apply Forall_forall. intros [i j] Hij%elem_of_combinations2_seq. simpl. lia.
Qed.

End phase.

(** The two loops of the source are instances. *)

Lemma swap_rows_rearrangement M i j S :
  swap_rows M i j = Ok S → rearrangement M S.
Proof. intros. eapply rearr_row; [done|]. constructor. Qed.

Lemma swap_cols_rearrangement M i j S :
  swap_cols M i j = Ok S → rearrangement M S.
Proof. intros. eapply rearr_col; [done|]. constructor. Qed.

Lemma swap_rows_defined M i j :
  i < shape0 M → j < shape0 M → ∃ S, swap_rows M i j = Ok S.
Proof. intros. eexists. by apply swap_rows_Ok. Qed.

Lemma swap_cols_defined M i j :
  i < shape1 M → j < shape1 M → ∃ S, swap_cols M i j = Ok S.
Proof. intros. eexists. by apply swap_cols_Ok. Qed.

Lemma shape0_rearrangement M M' : rearrangement M M' → shape0 M' = shape0 M.
Proof. intros H. by apply rearrangement_shape in H as [? ?]. Qed.

Lemma shape1_rearrangement M M' : rearrangement M M' → shape1 M' = shape1 M.
Proof. intros H. by apply rearrangement_shape in H as [? ?]. Qed.

Lemma improved_trans st1 st2 st3 :
  improved st1 st2 → improved st2 st3 → improved st1 st3.
Proof.
  destruct st1 as [[M1 f1] log1], st2 as [[M2 f2] log2], st3 as [[M3 f3] log3].
  intros (_ & Hr1 & Hl1 & ev1 & Hev1 & ->) (-> & Hr2 & Hl2 & ev2 & Hev2 & ->).
  repeat split.
  - by eapply rearrangement_trans.
  - by eapply lex_greater_trans.
  - exists (ev1 ++ ev2). split; [|by rewrite (assoc_L (++))].
    by destruct ev1.
Qed.

(** ** One iteration of the [while] loop *)

Lemma pass_spec M log :
  ∃ st', pass (shape0 M) (shape1 M) M log = Ok st' ∧
    ((st' = (M, true, log) ∧ locally_maximal M) ∨ improved (M, true, log) st').
Proof.
  unfold pass.
  destruct (for_each_spec swap_rows shape0 Row swap_rows_defined
              swap_rows_rearrangement shape0_rearrangement
              (shape0 M) (combinations2 (seq 0 (shape0 M))) M true log)
    as (st1 & -> & Hst1); [done|apply combinations2_in_range|]. simpl.
  destruct Hst1 as [[-> Hrows]|Himp1].
  - destruct (for_each_spec swap_cols shape1 Col swap_cols_defined
                swap_cols_rearrangement shape1_rearrangement
                (shape1 M) (combinations2 (seq 0 (shape1 M))) M true log)
      as (st2 & -> & Hst2); [done|apply combinations2_in_range|].
    exists st2. split; [done|].
    destruct Hst2 as [[-> Hcols]|Himp2]; [left|by right].
    split; [done|]. split.
    + by apply (no_greater_swap_combinations swap_rows shape0
                  swap_rows_comm swap_rows_same).
    + by apply (no_greater_swap_combinations swap_cols shape1
                  swap_cols_comm swap_cols_same).
  - destruct st1 as [[M1 f1] log1].
    pose proof Himp1 as (_ & Hr1 & _).
    destruct (for_each_spec swap_cols shape1 Col swap_cols_defined
                swap_cols_rearrangement shape1_rearrangement
                (shape1 M) (combinations2 (seq 0 (shape1 M))) M1 f1 log1)
      as (st2 & -> & Hst2);
      [by apply shape1_rearrangement|apply combinations2_in_range|].
    exists st2. split; [done|]. right.
    destruct Hst2 as [[-> _]|Himp2]; [done|].
    exact (improved_trans _ _ _ Himp1 Himp2).
Qed.

(** A locally maximal array goes through the body unchanged. *)
Lemma pass_locally_maximal M log :
  locally_maximal M → pass (shape0 M) (shape1 M) M log = Ok (M, true, log).
Proof.
  intros [Hrows Hcols]. unfold pass.
  rewrite for_each_rejected
    by by apply (combinations2_no_greater_swap swap_rows shape0).
  simpl. apply for_each_rejected.
  by apply (combinations2_no_greater_swap swap_cols shape1).
Qed.

(** ** The measure of the [while] loop *)

Lemma rank_lt l0 a b :
  b ≡ₚ l0 → lex_greater b a = true → rank l0 b < rank l0 a.
Proof.
  intros Hb Hlex. unfold rank.
  rewrite (list_filter_iff (λ v, lex_greater v b = true)
             (λ v, lex_greater v b = true ∧ lex_greater v a = true)).
  - rewrite <-list_filter_filter. apply length_filter_lt with b.
    + apply list_elem_of_filter. split; [done|].
      by apply permutations_Permutation.
    + by rewrite lex_greater_irrefl.
  - intros v. split; [|by intros [? _]].
    intros Hv. split; [done|]. by eapply lex_greater_trans.
Qed.

Lemma rank_bound l0 a : rank l0 a ≤ length (permutations l0).
Proof. apply length_filter. Qed.

(** ** The [while] loop *)

Lemma while_not_max_found_mono fuel fuel' rows cols M log r :
  while_not_max_found fuel rows cols M log = Some r →
  fuel ≤ fuel' →
  while_not_max_found fuel' rows cols M log = Some r.
Proof.
  revert fuel' M log. induction fuel as [|fuel IH]; intros fuel' M log; [done|].
  intros Hrun Hle. destruct fuel' as [|fuel']; [lia|]. simpl in *.
  destruct (pass rows cols M log) as [[[M' [|]] log']|e]; try done.
  apply IH; [done|lia].
Qed.

Lemma while_not_max_found_spec fuel l0 M log :
  reshape_flat M ≡ₚ l0 →
  rank l0 (reshape_flat M) < fuel →
  ∃ out log',
    while_not_max_found fuel (shape0 M) (shape1 M) M log = Some (Ok (out, log')) ∧
    rearrangement M out ∧ locally_maximal out ∧
    ((out = M ∧ log' = log) ∨
     (lex_greater (reshape_flat out) (reshape_flat M) = true ∧
      ∃ ev, ev ≠ [] ∧ log' = log ++ ev)).
Proof.
  revert M log. induction fuel as [|fuel IH]; intros M log Hperm Hrank; [lia|].
  simpl. destruct (pass_spec M log) as (st' & -> & [[-> Hmax]|Himp]).
  { exists M, log. repeat split; try apply Hmax; [constructor|by left]. }
  destruct st' as [[M' f'] log'].
  destruct Himp as (-> & Hr & Hlex & ev & Hev & ->).
  pose proof (rearrangement_flat _ _ Hr) as Hflat.
  destruct (IH M' (log ++ ev)) as (out & log'' & Hrun & Hr' & Hmax & Hout).
  { by rewrite Hflat. }
  { assert (rank l0 (reshape_flat M') < rank l0 (reshape_flat M)); [|lia].
    apply rank_lt; [by rewrite Hflat|done]. }
  rewrite (shape0_rearrangement _ _ Hr), (shape1_rearrangement _ _ Hr) in Hrun.
  exists out, log''. split; [done|]. split; [by eapply rearrangement_trans|].
  split; [done|]. right.
  destruct Hout as [[-> ->]|(Hlex' & ev' & Hev' & ->)].
  - split; [done|]. by exists ev.
  - split; [by eapply lex_greater_trans|].
    exists (ev ++ ev'). split; [by destruct ev|by rewrite (assoc_L (++))].
Qed.

(** ** Array objects: the store only grows *)

Lemma stepped_refl h l log : stepped h l log h l log.
Proof. split; [done|by left]. Qed.

Lemma stepped_trans h1 l1 log1 h2 l2 log2 h3 l3 log3 :
  stepped h1 l1 log1 h2 l2 log2 → stepped h2 l2 log2 h3 l3 log3 →
  stepped h1 l1 log1 h3 l3 log3.
Proof.
  intros [Hp1 H1] [Hp2 H2]. split; [by etrans|].
  pose proof (prefix_length _ _ Hp1).
  destruct H1 as [[-> ->]|[? ?]], H2 as [[-> ->]|[? ?]];
    [by left|right; lia..].
Qed.

Lemma st_bind_unfold {A B} (m : Heap.st A) (f : A → Heap.st B) h :
  (m ≫= f) h =
    match m h with
    | Some (Ok a, h') => f a h'
    | Some (Raise e, h') => Some (Raise e, h')
    | None => None
    end.
Proof. done. Qed.

Lemma heap_swap_rows_spec h l M i j :
  h !! l = Some M →
  Heap.swap_rows l i j h =
    Some (match swap_rows M i j with
          | Ok v => (Ok (length h), h ++ [v])
          | Raise e => (Raise e, h ++ [M])
          end).
Proof.
  intros Hl. unfold Heap.swap_rows, mbind, Heap.st_bind, Heap.copy.
  rewrite Hl. unfold Heap.assign_rows, swap_rows.
  rewrite list_lookup_middle by done.
  destruct (decide _); [|done]. simpl.
  by rewrite insert_app_r_alt, Nat.sub_diag by lia.
Qed.

Lemma heap_swap_cols_spec h l M i j :
  h !! l = Some M →
  Heap.swap_cols l i j h =
    Some (match swap_cols M i j with
          | Ok v => (Ok (length h), h ++ [v])
          | Raise e => (Raise e, h ++ [M])
          end).
Proof.
  intros Hl. unfold Heap.swap_cols, mbind, Heap.st_bind, Heap.copy.
  rewrite Hl. unfold Heap.assign_cols, swap_cols.
  rewrite list_lookup_middle by done.
  destruct (decide _); [|done]. simpl.
  by rewrite insert_app_r_alt, Nat.sub_diag by lia.
Qed.

Section agreement.
Variable swap_v : ndarray → nat → nat → result ndarray.
Variable swap_o : Heap.loc → nat → nat → Heap.st Heap.loc.
Variable ax : axis.

Hypothesis swap_o_spec : ∀ h l M i j,
  h !! l = Some M →
  swap_o l i j h =
    Some (match swap_v M i j with
          | Ok v => (Ok (length h), h ++ [v])
          | Raise e => (Raise e, h ++ [M])
          end).

Lemma heap_try_swap_spec h l M max_found log p :
  h !! l = Some M →
  agrees h l log (try_swap swap_v ax (M, max_found, log) p)
         (Heap.try_swap swap_o (l, max_found) p h).
Proof.
  intros Hl. unfold agrees, Heap.try_swap, try_swap.
  rewrite st_bind_unfold, (swap_o_spec _ _ _ _ _ Hl).
  destruct (swap_v M p.1 p.2) as [S1|e] eqn:HS1; cbn [mbind result_bind].
  2:{ do 2 eexists. split; [done|]. split; [done|]. by apply prefix_app_r. }
  rewrite st_bind_unfold. unfold Heap.greater.
  rewrite list_lookup_middle by done.
  rewrite (lookup_app_l_Some _ _ _ _ Hl).
  destruct (greater S1 M) as [[|]|e]; cbn [mbind result_bind].
  - rewrite st_bind_unfold.
    rewrite (swap_o_spec (h ++ [S1]) l M) by by apply lookup_app_l_Some.
    rewrite HS1.
    do 2 eexists. split; [done|]. eexists. split; [done|].
    split; [by rewrite list_lookup_middle|].
    split; [by apply prefix_app_r, prefix_app_r|].
    right. rewrite !length_app. simpl. lia.
  - do 2 eexists. split; [done|]. eexists. split; [done|].
    split; [by apply lookup_app_l_Some|].
    split; [by apply prefix_app_r|by left].
  - do 2 eexists. split; [done|]. split; [done|]. by apply prefix_app_r.
Qed.

Lemma heap_for_each_spec xs h l M max_found log :
  h !! l = Some M →
  agrees h l log (for_each (try_swap swap_v ax) xs (M, max_found, log))
         (Heap.for_each (Heap.try_swap swap_o) xs (l, max_found) h).
Proof.
  revert h l M max_found log.
  induction xs as [|p xs IH]; intros h l M max_found log Hl.
  { do 2 eexists. split; [done|]. eexists. split; [done|].
    split; [done|apply stepped_refl]. }
  cbn [for_each Heap.for_each].
  destruct (heap_try_swap_spec h l M max_found log p Hl)
    as (r & h1 & Hrun & Hr).
  rewrite st_bind_unfold, Hrun.
  destruct (try_swap swap_v ax (M, max_found, log) p)
    as [[[M1 f1] log1]|e]; cbn [mbind result_bind].
  - destruct Hr as (l1 & -> & Hl1 & Hstep).
    destruct (IH h1 l1 M1 f1 log1 Hl1) as (r2 & h2 & -> & Hr2).
    do 2 eexists. split; [done|].
    destruct (for_each _ _ _) as [[[M2 f2] log2]|e].
    + destruct Hr2 as (l2 & -> & Hl2 & Hstep2).
      eexists. split; [done|]. split; [done|]. by eapply stepped_trans.
    + destruct Hr2 as [-> Hp]. split; [done|]. destruct Hstep. by etrans.
  - destruct Hr as [-> Hp]. by do 2 eexists.
Qed.

End agreement.

Lemma heap_pass_spec rows cols h l M log :
  h !! l = Some M →
  agrees h l log (pass rows cols M log) (Heap.pass rows cols l h).
Proof.
  intros Hl. unfold pass, Heap.pass.
  destruct (heap_for_each_spec swap_rows Heap.swap_rows Row heap_swap_rows_spec
              (combinations2 (seq 0 rows)) h l M true log Hl)
    as (r1 & h1 & Hrun1 & Hr1).
  rewrite st_bind_unfold, Hrun1.
  destruct (for_each (try_swap swap_rows Row) _ _) as [[[M1 f1] log1]|e];
    cbn [mbind result_bind].
  - destruct Hr1 as (l1 & -> & Hl1 & Hstep1).
    destruct (heap_for_each_spec swap_cols Heap.swap_cols Col
                heap_swap_cols_spec (combinations2 (seq 0 cols))
                h1 l1 M1 f1 log1 Hl1) as (r2 & h2 & Hrun2 & Hr2).
    exists r2, h2. split; [done|].
    destruct (for_each (try_swap swap_cols Col) _ _) as [[[M2 f2] log2]|e].
    + destruct Hr2 as (l2 & -> & Hl2 & Hstep2).
      exists l2. split; [done|]. split; [done|]. by eapply stepped_trans.
    + destruct Hr2 as [-> Hp]. split; [done|]. destruct Hstep1. by etrans.
  - destruct Hr1 as [-> Hp]. by do 2 eexists.
Qed.

Lemma heap_while_not_max_found_spec fuel rows cols h l M log :
  h !! l = Some M →
  match while_not_max_found fuel rows cols M log with
  | None => Heap.while_not_max_found fuel rows cols l h = None
  | Some rv =>
      ∃ r h', Heap.while_not_max_found fuel rows cols l h = Some (r, h') ∧
        match rv with
        | Ok (out, log') =>
            ∃ l', r = Ok l' ∧ h' !! l' = Some out ∧ stepped h l log h' l' log'
        | Raise e => r = Raise e ∧ h `prefix_of` h'
        end
  end.
Proof.
  revert h l M log. induction fuel as [|fuel IH]; intros h l M log Hl; [done|].
  cbn [while_not_max_found Heap.while_not_max_found].
  destruct (heap_pass_spec rows cols h l M log Hl) as (r1 & h1 & Hrun1 & Hr1).
  rewrite st_bind_unfold, Hrun1.
  destruct (pass rows cols M log) as [[[M1 [|]] log1]|e].
  - destruct Hr1 as (l1 & -> & Hl1 & Hstep1). simpl.
    do 2 eexists. split; [done|]. by exists l1.
  - destruct Hr1 as (l1 & -> & Hl1 & Hstep1). simpl.
    specialize (IH h1 l1 M1 log1 Hl1).
    destruct (while_not_max_found fuel rows cols M1 log1) as [rv|]; [|done].
    destruct IH as (r & h' & -> & Hr). exists r, h'. split; [done|].
    destruct rv as [[out log']|e].
    + destruct Hr as (l' & -> & Hl' & Hstep).
      exists l'. split; [done|]. split; [done|]. by eapply stepped_trans.
    + destruct Hr as [-> Hp]. split; [done|]. destruct Hstep1. by etrans.
  - destruct Hr1 as [-> Hp]. by do 2 eexists.
Qed.

Lemma heap_maximise_matrix_spec fuel h l M :
  h !! l = Some M →
  match maximise_matrix_log fuel M with
  | None => Heap.maximise_matrix fuel l h = None
  | Some rv =>
      ∃ r h', Heap.maximise_matrix fuel l h = Some (r, h') ∧
        match rv with
        | Ok (out, log') =>
            ∃ l', r = Ok l' ∧ h' !! l' = Some out ∧ stepped h l [] h' l' log'
        | Raise e => r = Raise e ∧ h `prefix_of` h'
        end
  end.
Proof.
  intros Hl. unfold maximise_matrix_log, Heap.maximise_matrix. rewrite Hl.
  by apply heap_while_not_max_found_spec.
Qed.

(** ** maximise_matrix returns *)

Lemma maximise_matrix_log_spec M :
  ∃ out log,
    maximise_matrix_log (S (rank (reshape_flat M) (reshape_flat M))) M
      = Some (Ok (out, log)) ∧
    rearrangement M out ∧ locally_maximal out ∧
    ((out = M ∧ log = []) ∨
     (lex_greater (reshape_flat out) (reshape_flat M) = true ∧ log ≠ [])).
Proof.
  destruct (while_not_max_found_spec
              (S (rank (reshape_flat M) (reshape_flat M)))
              (reshape_flat M) M []) as (out & log & Hrun & Hr & Hmax & Hout);
    [done|lia|].
  exists out, log. repeat split; try done; try apply Hmax.
  destruct Hout as [?|[? (ev & ? & ->)]]; [by left|by right].
Qed.

Lemma maximise_matrix_mono fuel fuel' M r :
  maximise_matrix fuel M = Some r → fuel ≤ fuel' →
  maximise_matrix fuel' M = Some r.
Proof.
  unfold maximise_matrix, maximise_matrix_log. intros Hrun Hle.
  destruct (while_not_max_found fuel _ _ _ _) as [r0|] eqn:Hw; [|done].
  by rewrite (while_not_max_found_mono _ _ _ _ _ _ _ Hw Hle).
Qed.

Lemma returns_unique M out1 out2 : returns M out1 → returns M out2 → out1 = out2.
Proof.
  intros [f1 H1] [f2 H2].
  apply (maximise_matrix_mono _ (f1 `max` f2)) in H1; [|lia].
  apply (maximise_matrix_mono _ (f1 `max` f2)) in H2; [|lia].
  congruence.
Qed.

Lemma maximise_matrix_returns M :
  ∃ out, returns M out ∧ rearrangement M out ∧ locally_maximal out.
Proof.
  destruct (maximise_matrix_log_spec M) as (out & log & Hrun & Hr & Hmax & _).
  exists out. split; [|done]. eexists. unfold maximise_matrix.
  by rewrite Hrun.
Qed.

Lemma returns_locally_maximal M : locally_maximal M → returns M M.
Proof.
  intros Hmax. exists 1.
  unfold maximise_matrix, maximise_matrix_log. simpl.
  by rewrite pass_locally_maximal.
Qed.

(** ** Flattened length *)

Lemma wf_flat_length M :
  wf M → length (reshape_flat M) = shape0 M * shape1 M.
Proof.
  destruct M as [r c d]. unfold wf, reshape_flat. simpl. intros [<- Hrows].
  induction Hrows as [|x d Hx _ IH]; simpl; [done|].
  rewrite length_app. lia.
Qed.

Lemma lex_greater_nil_r a : lex_greater a [] = false.
Proof. by destruct a. Qed.

Lemma first_difference_unique a b k x y k' x' y' :
  first_difference a b k x y → first_difference a b k' x' y' →
  k = k' ∧ x = x' ∧ y = y'.
Proof.
  intros (Ha & Hb & Hne & Hpre) (Ha' & Hb' & Hne' & Hpre').
  destruct (Nat.lt_trichotomy k k') as [Hlt|[->|Hlt]].
  - specialize (Hpre' k Hlt). congruence.
  - split; [done|]. split; congruence.
  - specialize (Hpre k' Hlt). congruence.
Qed.

Lemma empty_locally_maximal M :
  wf M → shape0 M = 0 ∨ shape1 M = 0 → locally_maximal M.
Proof.
  intros Hwf Hempty.
  assert (reshape_flat M = []) as Hnil.
  { apply length_zero_iff_nil. rewrite wf_flat_length by done. lia. }
  split; intros i j Hi Hj.
  - destruct (swap_rows_defined M i j Hi Hj) as [S HS]. exists S.
    split; [done|].
    rewrite (greater_rearrangement _ _ (swap_rows_rearrangement _ _ _ _ HS)).
    by rewrite Hnil, lex_greater_nil_r.
  - destruct (swap_cols_defined M i j Hi Hj) as [S HS]. exists S.
    split; [done|].
    rewrite (greater_rearrangement _ _ (swap_cols_rearrangement _ _ _ _ HS)).
    by rewrite Hnil, lex_greater_nil_r.
Qed.

Lemma try_swap_accepts swap ax N max_found log p N' max_found' log' :
  (∀ M i j S, swap M i j = Ok S → rearrangement M S) →
  try_swap swap ax (N, max_found, log) p = Ok (N', max_found', log') →
  (N' = N ∧ max_found' = max_found ∧ log' = log) ∨
  (max_found' = false ∧ log' = log ++ [(ax, p.1, p.2)] ∧
   swap N p.1 p.2 = Ok N' ∧
   lex_greater (reshape_flat N') (reshape_flat N) = true).
Proof.
  intros Hswap. unfold try_swap.
  destruct (swap N p.1 p.2) as [S|e] eqn:HS; [|done]. cbn [mbind result_bind].
  rewrite (greater_rearrangement _ _ (Hswap _ _ _ _ HS)). cbn [mbind result_bind].
  destruct (lex_greater _ _) eqn:Hlex.
  - intros [= <- <- <-]. by right.
  - intros [= <- <- <-]. by left.
Qed.

Lemma ex_in_wf : wf ex_in.
Proof. split; [done|]. by repeat constructor. Qed.

(** * The claims *)

(** C3: for equally shaped arrays [A] and [B], [greater A B] returns a
    Boolean; it is [True] exactly when the row-major readings differ
    somewhere and, at the first position where they differ, the value of [A]
    exceeds the value of [B]; it is [False] when the readings are identical
    and when the first differing position favours [B]. *)
Theorem C3_greater_first_difference (A B : ndarray)
    (HA : wf A) (HB : wf B)
    (Hrows : shape0 A = shape0 B) (Hcols : shape1 A = shape1 B) :
  ∃ r : bool, greater A B = Ok r ∧
    (r = true ↔
       ∃ k x y, first_difference (reshape_flat A) (reshape_flat B) k x y ∧
                (y < x)%Z) ∧
    (reshape_flat A = reshape_flat B → r = false) ∧
    ((∃ k x y, first_difference (reshape_flat A) (reshape_flat B) k x y ∧
               (x < y)%Z) → r = false).
Proof.
  exists (lex_greater (reshape_flat A) (reshape_flat B)).
  split; [|split; [|split]].
  - apply greater_lex. rewrite !wf_flat_length by done. by rewrite Hrows, Hcols.
  - apply lex_greater_first_difference.
  - intros ->. apply lex_greater_irrefl.
  - intros (k & x & y & Hd & Hlt).
    destruct (lex_greater _ _) eqn:Hlex; [|done].
    apply lex_greater_first_difference in Hlex as (k' & x' & y' & Hd' & Hlt').
    destruct (first_difference_unique _ _ _ _ _ _ _ _ Hd Hd') as (_ & -> & ->).
    lia.
Qed.

Lemma C3_witness :
  wf ex_in ∧ wf ex_doc ∧ ∃ r : bool, greater ex_doc ex_in = Ok r ∧ r = true.
Proof.
  split; [exact ex_in_wf|]. split; [split; [done|by repeat constructor]|].
  destruct (C3_greater_first_difference ex_doc ex_in) as (r & Hg & Hr & _);
    [split; [done|by repeat constructor]|exact ex_in_wf|done|done|].
  exists r. split; [done|]. apply Hr. exists 0, 3%Z, 0%Z.
  repeat split; try done. intros i Hi. lia.
Defined.

(** C10: whenever the row-major readings of [A] and [B] have the same
    length, whatever the two shapes are, [greater A B] raises nothing and
    returns the lexicographic comparison of the two readings. *)
Theorem C10_greater_equal_size (A B : ndarray)
    (Hlen : length (reshape_flat A) = length (reshape_flat B)) :
  greater A B = Ok (lex_greater (reshape_flat A) (reshape_flat B)).
Proof. by apply greater_lex. Qed.

Lemma C10_witness :
  (shape0 ex_2x3, shape1 ex_2x3) ≠ (shape0 ex_3x2, shape1 ex_3x2) ∧
  greater ex_2x3 ex_3x2 = Ok true.
Proof.
  split; [done|]. by rewrite (C10_greater_equal_size ex_2x3 ex_3x2).
Defined.

(** C8, as stated, fails: arrays of different dimensions with equally long
    readings are compared, and an array with a single entry is broadcast. *)
Lemma C8_counterexample :
  (shape0 ex_2x3, shape1 ex_2x3) ≠ (shape0 ex_3x2, shape1 ex_3x2) ∧
  greater ex_2x3 ex_3x2 = Ok true ∧
  (shape0 ex_1x1, shape1 ex_1x1) ≠ (shape0 ex_2x2, shape1 ex_2x2) ∧
  greater ex_1x1 ex_2x2 = Ok true.
Proof. by repeat split. Qed.

(** C8, amended: when the row-major readings of [A] and [B] have different
    lengths, neither of them 1, [greater A B] fails with the [ValueError] of
    numpy's broadcasting. *)
Theorem C8_greater_size_mismatch (A B : ndarray)
    (Hne : length (reshape_flat A) ≠ length (reshape_flat B))
    (HA : length (reshape_flat A) ≠ 1)
    (HB : length (reshape_flat B) ≠ 1) :
  greater A B = Raise ValueError.
Proof.
  unfold greater, broadcast. cbv zeta.
  destruct (decide _) as [?|_]; [done|].
  by destruct (reshape_flat A) as [|x [|x' a]],
              (reshape_flat B) as [|y [|y' b]].
Qed.

Lemma C8_witness : greater ex_2x2 ex_3x2 = Raise ValueError.
Proof. by apply (C8_greater_size_mismatch ex_2x2 ex_3x2). Defined.

(** C7, as stated, fails: an array with zero rows is returned as it is, and
    no error is raised. *)
Lemma C7_counterexample :
  wf ex_0x3 ∧ shape0 ex_0x3 = 0 ∧ maximise_matrix 1 ex_0x3 = Some (Ok ex_0x3).
Proof. by repeat split. Qed.

(** C7, amended: [maximise_matrix] checks no shape; an array with zero rows
    or zero columns goes through one iteration with no accepted swap and is
    returned unchanged, and no error is raised. *)
Theorem C7_empty_returned_unchanged (M : ndarray) (fuel : nat)
    (Hwf : wf M) (Hempty : shape0 M = 0 ∨ shape1 M = 0) :
  maximise_matrix_log (S fuel) M = Some (Ok (M, [])) ∧
  maximise_matrix (S fuel) M = Some (Ok M).
Proof.
  assert (maximise_matrix_log (S fuel) M = Some (Ok (M, []))) as Hrun.
  { unfold maximise_matrix_log. simpl.
    by rewrite pass_locally_maximal by by apply empty_locally_maximal. }
  split; [done|]. unfold maximise_matrix. by rewrite Hrun.
Qed.

Lemma C7_witness :
  maximise_matrix 3 (mat 2 0 [[]; []]) = Some (Ok (mat 2 0 [[]; []])).
Proof.
  apply (C7_empty_returned_unchanged (mat 2 0 [[]; []]) 2).
  - split; [done|]. by repeat constructor.
  - by right.
Defined.

(** C1: [maximise_matrix M] returns an array [out] that is a local maximum:
    no swap of two rows and no swap of two columns of [out] is
    lexicographically greater than [out]; and [maximise_matrix out] returns
    [out] again. *)
Theorem C1_local_maximum_idempotent (M : ndarray) (Hwf : wf M) :
  ∃ out, returns M out ∧
    (∀ i j, i < shape0 out → j < shape0 out →
       ∃ S, swap_rows out i j = Ok S ∧ greater S out = Ok false ∧
            lex_greater (reshape_flat S) (reshape_flat out) = false) ∧
    (∀ i j, i < shape1 out → j < shape1 out →
       ∃ S, swap_cols out i j = Ok S ∧ greater S out = Ok false ∧
            lex_greater (reshape_flat S) (reshape_flat out) = false) ∧
    returns out out ∧
    (∀ out', returns out out' → out' = out).
Proof.
  destruct (maximise_matrix_returns M) as (out & Hret & Hr & Hmax).
  exists out. split; [done|]. split; [|split; [|split]].
  - intros i j Hi Hj. destruct (proj1 Hmax i j Hi Hj) as (S & HS & Hg).
    exists S. split; [done|]. split; [done|].
    rewrite (greater_rearrangement _ _ (swap_rows_rearrangement _ _ _ _ HS))
      in Hg. congruence.
  - intros i j Hi Hj. destruct (proj2 Hmax i j Hi Hj) as (S & HS & Hg).
    exists S. split; [done|]. split; [done|].
    rewrite (greater_rearrangement _ _ (swap_cols_rearrangement _ _ _ _ HS))
      in Hg. congruence.
  - by apply returns_locally_maximal.
  - intros out' Hout'. eapply returns_unique; [done|].
    by apply returns_locally_maximal.
Qed.

Lemma C1_witness :
  wf ex_in ∧ ∃ out, returns ex_in out ∧ returns out out.
Proof.
  split; [exact ex_in_wf|].
  destruct (C1_local_maximum_idempotent ex_in ex_in_wf)
    as (out & Hret & _ & _ & Hidem & _).
  by exists out.
Defined.

(** C2, as stated, fails: on the worked example the loop stops at another
    array than the one documented for [F]. *)
Lemma C2_counterexample :
  returns ex_in ex_out ∧ ex_out ≠ ex_doc ∧ ¬ returns ex_in ex_doc.
Proof.
  assert (returns ex_in ex_out) as Hout by by exists 2.
  split; [done|]. split; [done|].
  intros Hdoc. by pose proof (returns_unique _ _ _ Hout Hdoc).
Qed.

(** C2, amended: on the input [[0,0,0],[0,1,3],[2,1,1]] the loop returns
    [[2,1,1],[0,3,1],[0,0,0]] in its second iteration, after accepting the
    row swaps (0,1), (0,2), (1,2) and the column swap (1,2). *)
Theorem C2_worked_example (k : nat) :
  maximise_matrix_log (2 + k) ex_in = Some (Ok (ex_out, ex_log)) ∧
  maximise_matrix (2 + k) ex_in = Some (Ok ex_out) ∧
  maximise_matrix 1 ex_in = None ∧
  (∃ i j, (Row, i, j) ∈ ex_log) ∧ (∃ i j, (Col, i, j) ∈ ex_log).
Proof.
  assert (maximise_matrix_log (2 + k) ex_in = Some (Ok (ex_out, ex_log))) as H.
  { unfold maximise_matrix_log.
    apply (while_not_max_found_mono 2); [done|lia]. }
  split; [done|]. split; [unfold maximise_matrix; by rewrite H|].
  split; [done|]. split.
  - exists 0, 1. unfold ex_log. by repeat constructor.
  - exists 1, 2. unfold ex_log. by repeat constructor.
Qed.

(** C4: [maximise_matrix M] returns a rearrangement of [M] by row and column
    swaps: an array of the same shape whose entries are, as a multiset, the
    entries of [M]. *)
Theorem C4_rearrangement (M : ndarray) (Hwf : wf M) :
  ∃ out, returns M out ∧ (∀ out', returns M out' → out' = out) ∧
    wf out ∧ shape0 out = shape0 M ∧ shape1 out = shape1 M ∧
    reshape_flat out ≡ₚ reshape_flat M ∧
    rearrangement M out.
Proof.
  destruct (maximise_matrix_returns M) as (out & Hret & Hr & Hmax).
  exists out. split; [done|]. split.
  { intros out' Hout'. by eapply returns_unique. }
  split; [by eapply rearrangement_wf|].
  split; [by apply shape0_rearrangement|].
  split; [by apply shape1_rearrangement|].
  split; [by apply rearrangement_flat|done].
Qed.

Lemma C4_witness :
  wf ex_in ∧ ∃ out, returns ex_in out ∧ reshape_flat out ≡ₚ reshape_flat ex_in.
Proof.
  split; [exact ex_in_wf|].
  destruct (C4_rearrangement ex_in ex_in_wf)
    as (out & Hret & _ & _ & _ & _ & Hperm & _).
  by exists out.
Defined.

(** C5: [maximise_matrix] terminates.  The loop returns within as many
    iterations as the entries have orderings, plus one; an accepted swap
    makes the row-major reading strictly greater; every array that row and
    column swaps can reach has one of the finitely many orderings of the
    entries as its reading; and the loop returns at the end of an iteration
    in which no swap was accepted. *)
Theorem C5_termination (M : ndarray) (Hwf : wf M) :
  (∃ fuel out,
      fuel ≤ S (length (permutations (reshape_flat M))) ∧
      maximise_matrix fuel M = Some (Ok out)) ∧
  (∀ N max_found log p N' max_found' log',
      try_swap swap_rows Row (N, max_found, log) p = Ok (N', max_found', log') ∨
      try_swap swap_cols Col (N, max_found, log) p = Ok (N', max_found', log') →
      log' ≠ log →
      lex_greater (reshape_flat N') (reshape_flat N) = true) ∧
  (∀ N, rearrangement M N →
      reshape_flat N ∈ permutations (reshape_flat M)) ∧
  (∀ fuel N log N' max_found' log',
      rearrangement M N →
      pass (shape0 M) (shape1 M) N log = Ok (N', max_found', log') →
      log' = log →
      while_not_max_found (S fuel) (shape0 M) (shape1 M) N log
        = Some (Ok (N, log))).
Proof.
  split; [|split; [|split]].
  - destruct (maximise_matrix_log_spec M) as (out & log & Hrun & _).
    exists (S (rank (reshape_flat M) (reshape_flat M))), out.
    split; [pose proof (rank_bound (reshape_flat M) (reshape_flat M)); lia|].
    unfold maximise_matrix. by rewrite Hrun.
  - intros N mf log p N' mf' log' [Hstep|Hstep] Hlog.
    + apply try_swap_accepts in Hstep
        as [(_ & _ & ->)|(_ & _ & _ & Hlex)]; [done|done|].
      apply swap_rows_rearrangement.
    + apply try_swap_accepts in Hstep
        as [(_ & _ & ->)|(_ & _ & _ & Hlex)]; [done|done|].
      apply swap_cols_rearrangement.
  - intros N Hr. apply permutations_Permutation.
    symmetry. by apply rearrangement_flat.
  - intros fuel N log N' mf' log' Hr Hpass ->.
    rewrite <-(shape0_rearrangement _ _ Hr), <-(shape1_rearrangement _ _ Hr)
      in Hpass |- *.
    cbn [while_not_max_found].
    destruct (pass_spec N log) as (st' & Hst' & [[-> _]|Himp]).
    { by rewrite Hst'. }
    rewrite Hpass in Hst'. injection Hst' as <-.
    destruct Himp as (_ & _ & _ & ev & Hev & Hlog).
    apply (f_equal length) in Hlog. rewrite length_app in Hlog.
    destruct ev; [done|]. simpl in Hlog. lia.
Qed.

Lemma C5_witness :
  wf ex_in ∧ ∃ fuel out, maximise_matrix fuel ex_in = Some (Ok out).
Proof.
  split; [exact ex_in_wf|].
  destruct (C5_termination ex_in ex_in_wf) as [(fuel & out & _ & Hrun) _].
  by exists fuel, out.
Defined.

(** C6: [maximise_matrix] is not a canonical form.  There are two arrays,
    each a rearrangement of the other by row and column swaps, on which it
    returns different arrays; and what it returns on the first one is not
    the greatest rearrangement, since the second result is a greater one. *)
Theorem C6_not_canonical :
  ∃ A B outA outB,
    wf A ∧ wf B ∧ rearrangement A B ∧ rearrangement B A ∧
    returns A outA ∧ returns B outB ∧ outA ≠ outB ∧
    rearrangement A outB ∧ greater outB outA = Ok true.
Proof.
  assert (rearrangement ex_in ex_doc) as Hr.
  { apply (rearr_col _ 0 2 (mat 3 3 [[0;0;0];[3;1;0];[1;1;2]]%Z)); [done|].
    apply (rearr_row _ 0 1 (mat 3 3 [[3;1;0];[0;0;0];[1;1;2]]%Z)); [done|].
    apply (rearr_row _ 1 2 ex_doc); [done|]. constructor. }
  assert (rearrangement ex_doc ex_in) as Hr'.
  { apply (rearr_row _ 1 2 (mat 3 3 [[3;1;0];[0;0;0];[1;1;2]]%Z)); [done|].
    apply (rearr_row _ 0 1 (mat 3 3 [[0;0;0];[3;1;0];[1;1;2]]%Z)); [done|].
    apply (rearr_col _ 0 2 ex_in); [done|]. constructor. }
  exists ex_in, ex_doc, ex_out, ex_doc.
  split; [exact ex_in_wf|]. split; [split; [done|by repeat constructor]|].
  split; [done|]. split; [done|].
  split; [by exists 2|]. split; [by exists 1|]. by repeat split.
Qed.

(** C9, as stated, fails in its last part: on an array that is already a
    local maximum, [maximise_matrix] returns the very object it was given,
    not a new one. *)
Lemma C9_counterexample :
  ∃ (h : list ndarray) (l : nat),
    h !! l = Some ex_1x1 ∧ Heap.maximise_matrix 1 l h = Some (Ok l, h).
Proof. by exists [ex_1x1], 0. Qed.

(** C9, amended: none of [swap_rows], [swap_cols] and [maximise_matrix]
    writes into an object that existed before the call, so the caller's
    array holds the same entries afterwards.  Each swap writes into a newly
    allocated copy and returns it.  [maximise_matrix] returns a newly
    allocated array when it accepted a swap, and the caller's own array when
    it accepted none. *)
Theorem C9_caller_array_unchanged (h : list ndarray) (l : nat) (M : ndarray)
    (Hl : h !! l = Some M) :
  (∀ i j, ∃ r h',
      Heap.swap_rows l i j h = Some (r, h') ∧
      h `prefix_of` h' ∧ h' !! l = Some M ∧
      match swap_rows M i j with
      | Ok v => r = Ok (length h) ∧ h' !! length h = Some v
      | Raise e => r = Raise e
      end) ∧
  (∀ i j, ∃ r h',
      Heap.swap_cols l i j h = Some (r, h') ∧
      h `prefix_of` h' ∧ h' !! l = Some M ∧
      match swap_cols M i j with
      | Ok v => r = Ok (length h) ∧ h' !! length h = Some v
      | Raise e => r = Raise e
      end) ∧
  (∀ fuel,
      match maximise_matrix_log fuel M with
      | None => Heap.maximise_matrix fuel l h = None
      | Some rv => ∃ r h',
          Heap.maximise_matrix fuel l h = Some (r, h') ∧
          h `prefix_of` h' ∧ h' !! l = Some M ∧
          match rv with
          | Ok (out, log) => ∃ l',
              r = Ok l' ∧ h' !! l' = Some out ∧
              ((l' = l ∧ log = []) ∨ (length h ≤ l' ∧ log ≠ []))
          | Raise e => r = Raise e
          end
      end) ∧
  (∃ fuel l' h', Heap.maximise_matrix fuel l h = Some (Ok l', h')).
Proof.
  assert (∀ h', h `prefix_of` h' → h' !! l = Some M) as Hframe.
  { intros h' [k ->]. by apply lookup_app_l_Some. }
  assert (∀ fuel,
      match maximise_matrix_log fuel M with
      | None => Heap.maximise_matrix fuel l h = None
      | Some rv => ∃ r h',
          Heap.maximise_matrix fuel l h = Some (r, h') ∧
          h `prefix_of` h' ∧ h' !! l = Some M ∧
          match rv with
          | Ok (out, log) => ∃ l',
              r = Ok l' ∧ h' !! l' = Some out ∧
              ((l' = l ∧ log = []) ∨ (length h ≤ l' ∧ log ≠ []))
          | Raise e => r = Raise e
          end
      end) as Hmax.
  { intros fuel. pose proof (heap_maximise_matrix_spec fuel h l M Hl) as Hspec.
    destruct (maximise_matrix_log fuel M) as [rv|]; [|done].
    destruct Hspec as (r & h' & Hrun & Hr). exists r, h'. split; [done|].
    destruct rv as [[out log]|e].
    - destruct Hr as (l' & -> & Hl' & Hp & Hcase).
      split; [done|]. split; [by apply Hframe|].
      exists l'. split; [done|]. split; [done|].
      destruct Hcase as [[-> ->]|[? Hlen]]; [by left|right].
      split; [done|]. intros ->. simpl in Hlen. lia.
    - destruct Hr as [-> Hp]. split; [done|]. split; [by apply Hframe|done]. }
  split; [|split; [|split]].
  - intros i j. rewrite (heap_swap_rows_spec h l M i j Hl).
    destruct (swap_rows M i j) as [v|e]; do 2 eexists;
      (split; [done|]); (split; [by apply prefix_app_r|]);
      (split; [by apply lookup_app_l_Some|]); [|done].
    split; [done|]. by apply list_lookup_middle.
  - intros i j. rewrite (heap_swap_cols_spec h l M i j Hl).
    destruct (swap_cols M i j) as [v|e]; do 2 eexists;
      (split; [done|]); (split; [by apply prefix_app_r|]);
      (split; [by apply lookup_app_l_Some|]); [|done].
    split; [done|]. by apply list_lookup_middle.
  - exact Hmax.
  - destruct (maximise_matrix_log_spec M) as (out & log & Hrun & _).
    specialize (Hmax (S (rank (reshape_flat M) (reshape_flat M)))).
    rewrite Hrun in Hmax. destruct Hmax as (r & h' & Hrun' & _ & _ & l' & -> & _).
    by eexists _, l', h'.
Qed.

Lemma C9_witness :
  ∃ r h', Heap.swap_rows 0 0 1 [ex_in] = Some (r, h') ∧ h' !! 0 = Some ex_in.
Proof.
  destruct (C9_caller_array_unchanged [ex_in] 0 ex_in eq_refl) as (Hrows & _).
  destruct (Hrows 0 1) as (r & h' & Hrun & _ & Hl & _).
  by exists r, h'.
Defined.

(** * Further properties of the pre-processing cell *)

(** ** Swaps, entry by entry *)

Lemma transp_involutive i j k : transp i j (transp i j k) = k.
Proof. unfold transp. repeat case_decide; congruence. Qed.

Lemma swap_list_lookup {A} (l : list A) i j k :
  i < length l → j < length l → swap_list l i j !! k = l !! transp i j k.
Proof.
  intros Hi Hj. unfold swap_list, transp.
  destruct (lookup_lt_is_Some_2 l i Hi) as [xi Hxi].
  destruct (lookup_lt_is_Some_2 l j Hj) as [xj Hxj].
  rewrite Hxi, Hxj.
  destruct (decide (k = j)) as [->|Hkj].
  - rewrite list_lookup_insert_eq by (rewrite length_insert; lia).
    destruct (decide (j = i)) as [->|]; congruence.
  - rewrite list_lookup_insert_ne by done.
    destruct (decide (k = i)) as [->|Hki].
    + rewrite list_lookup_insert_eq by lia. done.
    + by rewrite list_lookup_insert_ne.
Qed.

Lemma swap_list_out_of_range {A} (l : list A) i j :
  length l ≤ i ∨ length l ≤ j → swap_list l i j = l.
Proof.
  intros Hij. unfold swap_list.
  destruct (l !! j) as [xj|] eqn:Hj, (l !! i) as [xi|] eqn:Hi; try done.
  apply lookup_lt_Some in Hj, Hi. lia.
Qed.

Lemma swap_list_involutive {A} (l : list A) i j :
  swap_list (swap_list l i j) i j = l.
Proof.
  destruct (decide (i < length l ∧ j < length l)) as [[Hi Hj]|Hout].
  - apply list_eq. intros k.
    rewrite !swap_list_lookup by (rewrite ?swap_list_length; done).
    by rewrite transp_involutive.
  - rewrite (swap_list_out_of_range l i j) by lia.
    apply swap_list_out_of_range. lia.
Qed.

Lemma swap_list_fmap {A B} (f : A → B) (l : list A) i j :
  f <$> swap_list l i j = swap_list (f <$> l) i j.
Proof.
  unfold swap_list. rewrite !list_lookup_fmap.
  destruct (l !! j) as [xj|], (l !! i) as [xi|]; simpl; try done.
  by rewrite !list_fmap_insert.
Qed.

Lemma ex_doc_wf : wf ex_doc.
Proof. split; [done|]. by repeat constructor. Qed.





(** X3: swapping a row with itself, or a column with itself, returns an
    array equal to the input. *)
Theorem X3_swap_same (M : ndarray) (i : nat) :
  (i < shape0 M → swap_rows M i i = Ok M) ∧
  (i < shape1 M → swap_cols M i i = Ok M).
Proof. split; [apply swap_rows_same|apply swap_cols_same]. Qed.

Lemma X3_witness : swap_rows ex_in 1 1 = Ok ex_in ∧ swap_cols ex_in 2 2 = Ok ex_in.
Proof.
  destruct (X3_swap_same ex_in 1) as [Hr _].
  destruct (X3_swap_same ex_in 2) as [_ Hc].
  split; [apply Hr|apply Hc]; simpl; lia.
Defined.

(** X4: a swap is undone by the same swap: applying [swap_rows] (or
    [swap_cols]) with the same two indices to its own result gives back the
    array one started from. *)
Theorem X4_swap_involutive (M S : ndarray) (i j : nat) :
  (swap_rows M i j = Ok S → swap_rows S i j = Ok M) ∧
  (swap_cols M i j = Ok S → swap_cols S i j = Ok M).
Proof.
  split.
  - intros (Hi & Hj & ->)%swap_rows_inv. rewrite swap_rows_Ok by done. simpl.
    rewrite swap_list_involutive. by destruct M.
  - intros (Hi & Hj & ->)%swap_cols_inv. rewrite swap_cols_Ok by done. simpl.
    rewrite map_map.
    rewrite (map_ext _ id) by (intros; apply swap_list_involutive).
    rewrite map_id. by destruct M.
Qed.

Lemma X4_witness :
  swap_rows (mat 3 3 [[2;1;1];[0;1;3];[0;0;0]]%Z) 0 2 = Ok ex_in.
Proof.
  by apply (X4_swap_involutive ex_in (mat 3 3 [[2;1;1];[0;1;3];[0;0;0]]%Z) 0 2).
Defined.

(** X5: a row swap and a column swap commute: doing them in either order
    gives the same array, or [IndexError] in both orders. *)
Theorem X5_swap_rows_cols_commute (M : ndarray) (i j a b : nat) :
  (S ← swap_rows M i j; swap_cols S a b) =
  (S ← swap_cols M a b; swap_rows S i j).
Proof.
  unfold swap_rows, swap_cols.
  destruct (decide (i < shape0 M ∧ j < shape0 M)),
           (decide (a < shape1 M ∧ b < shape1 M)); simpl;
    rewrite ?decide_True by done; rewrite ?decide_False by done; try done.
  do 2 f_equal. apply (swap_list_fmap (λ r, swap_list r a b)).
Qed.

(** ** The comparator as an order *)

Lemma lex_greater_total a b :
  length a = length b →
  lex_greater a b = false → lex_greater b a = false → a = b.
Proof.
  revert b. induction a as [|x a IH]; intros [|y b] Hlen; simplify_eq/=.
  - done.
  - destruct (decide (x = y)) as [->|Hxy].
    + rewrite decide_True by done. intros Hab Hba. f_equal. by apply IH.
    + rewrite decide_False by done. rewrite !Z.gtb_ltb, !Z.ltb_ge. lia.
Qed.

(** X6: on arrays with equally many entries [greater] is a strict total
    order of the row-major readings: no array is greater than itself, two
    arrays are never each greater than the other, the relation is
    transitive, and when neither of two arrays is greater their readings are
    equal. *)
Theorem X6_greater_strict_total_order (A B C : ndarray)
    (HAB : length (reshape_flat A) = length (reshape_flat B))
    (HBC : length (reshape_flat B) = length (reshape_flat C)) :
  greater A A = Ok false ∧
  (greater A B = Ok true → greater B A = Ok false) ∧
  (greater A B = Ok true → greater B C = Ok true → greater A C = Ok true) ∧
  (greater A B = Ok false → greater B A = Ok false →
   reshape_flat A = reshape_flat B).
Proof.
  rewrite !greater_lex by congruence. split; [|split; [|split]].
  - by rewrite lex_greater_irrefl.
  - intros [= Hab]. f_equal.
    destruct (lex_greater (reshape_flat B) (reshape_flat A)) eqn:Hba; [|done].
    pose proof (lex_greater_trans _ _ _ Hab Hba) as Haa.
    by rewrite lex_greater_irrefl in Haa.
  - intros [= Hab] [= Hbc]. f_equal. by eapply lex_greater_trans.
  - intros [= Hab] [= Hba]. by apply lex_greater_total.
Qed.

Lemma X6_witness :
  greater ex_doc ex_in = Ok true ∧ greater ex_in ex_doc = Ok false.
Proof.
  destruct (X6_greater_strict_total_order ex_doc ex_in ex_in eq_refl eq_refl)
    as (_ & Hasym & _).
  split; [done|]. by apply Hasym.
Defined.

(** X7: [greater A B] raises [ValueError] exactly when the two row-major
    readings have different lengths and neither has length 1; it raises
    nothing at all when the lengths are equal. *)
Theorem X7_greater_ValueError (A B : ndarray) :
  (greater A B = Raise ValueError ↔
     length (reshape_flat A) ≠ length (reshape_flat B) ∧
     length (reshape_flat A) ≠ 1 ∧ length (reshape_flat B) ≠ 1) ∧
  (length (reshape_flat A) = length (reshape_flat B) →
   ∃ r, greater A B = Ok r).
Proof.
  split; [split|].
  - intros Hraise.
    destruct (decide (length (reshape_flat A) = length (reshape_flat B)))
      as [Heq|Hne]; [by rewrite greater_lex in Hraise|].
    split; [done|]. revert Hraise. unfold greater, broadcast. cbv zeta.
    rewrite !decide_False by done.
    destruct (reshape_flat A) as [|x [|x' a]],
             (reshape_flat B) as [|y [|y' b]]; simpl in *;
      try done; try lia; repeat case_match; done.
  - intros (Hne & HA & HB). unfold greater, broadcast. cbv zeta.
    rewrite !decide_False by done.
    by destruct (reshape_flat A) as [|x [|x' a]],
                (reshape_flat B) as [|y [|y' b]].
  - intros Hlen. eexists. by apply greater_lex.
Qed.

Lemma X7_witness : ∃ r, greater ex_2x3 ex_3x2 = Ok r.
Proof.
  destruct (X7_greater_ValueError ex_2x3 ex_3x2) as [_ H]. by apply H.
Defined.

(** ** A one-entry array against a longer one *)

Lemma mask_find_left x b :
  match list_find (λ y, y ≠ x) b with
  | None =>
      list_find (λ m, m = true)
        (zip_with xorb (map (Z.gtb x) b) (map (Z.ltb x) b)) = None
  | Some (idx, y) =>
      list_find (λ m, m = true)
        (zip_with xorb (map (Z.gtb x) b) (map (Z.ltb x) b)) = Some (idx, true)
      ∧ b !! idx = Some y
  end.
Proof.
  induction b as [|y b IH]; simpl; [done|].
  destruct (decide (y ≠ x)) as [Hne|Heq].
  - assert (xorb (x >? y)%Z (x <? y)%Z = true) as ->
      by (apply mask_head; congruence).
    by rewrite decide_True.
  - assert (y = x) as -> by (destruct (decide (y = x)); done).
    rewrite decide_False by (rewrite mask_head; congruence).
    destruct (list_find (λ y, y ≠ x) b) as [[idx y]|].
    + destruct IH as [-> ?]. done.
    + by rewrite IH.
Qed.

Lemma mask_find_right y a :
  match list_find (λ x, x ≠ y) a with
  | None =>
      list_find (λ m, m = true)
        (zip_with xorb (map (λ x, Z.gtb x y) a) (map (λ x, Z.ltb x y) a)) = None
  | Some (idx, x) =>
      list_find (λ m, m = true)
        (zip_with xorb (map (λ x, Z.gtb x y) a) (map (λ x, Z.ltb x y) a))
        = Some (idx, true)
      ∧ a !! idx = Some x
  end.
Proof.
  induction a as [|x a IH]; simpl; [done|].
  destruct (decide (x ≠ y)) as [Hne|Heq].
  - assert (xorb (x >? y)%Z (x <? y)%Z = true) as -> by by apply mask_head.
    by rewrite decide_True.
  - assert (x = y) as -> by (destruct (decide (x = y)); done).
    rewrite decide_False by (rewrite mask_head; congruence).
    destruct (list_find (λ x, x ≠ y) a) as [[idx x]|].
    + destruct IH as [-> ?]. done.
    + by rewrite IH.
Qed.

(** X8: when one argument of [greater] has a single entry [x] and the other
    has none or several, the single entry is compared with every entry of
    the other array.  If no entry differs from [x] the result is [False]; if
    the first entry of the other array differs, the two first entries are
    compared; if the first differing entry comes later, reading the
    one-entry array at that position raises [IndexError]. *)
Theorem X8_greater_one_entry (A B : ndarray) (x : Z) :
  (reshape_flat A = [x] → length (reshape_flat B) ≠ 1 →
   greater A B =
     match list_find (λ y, y ≠ x) (reshape_flat B) with
     | None => Ok false
     | Some (0, y) => Ok (x >? y)%Z
     | Some (S _, _) => Raise IndexError
     end) ∧
  (reshape_flat B = [x] → length (reshape_flat A) ≠ 1 →
   greater A B =
     match list_find (λ y, y ≠ x) (reshape_flat A) with
     | None => Ok false
     | Some (0, y) => Ok (y >? x)%Z
     | Some (S _, _) => Raise IndexError
     end).
Proof.
  split.
  - intros HA HB. unfold greater, broadcast. cbv zeta. rewrite HA.
    rewrite !decide_False by (simpl; lia). cbn [mbind result_bind].
    pose proof (mask_find_left x (reshape_flat B)) as Hfind.
    destruct (list_find (λ y, y ≠ x) _) as [[idx y]|].
    + destruct Hfind as [-> Hy]. destruct idx as [|idx]; simpl.
      * by rewrite Hy.
      * done.
    + by rewrite Hfind.
  - intros HB HA. unfold greater, broadcast. cbv zeta. rewrite HB.
    rewrite !decide_False by (simpl; lia).
    assert (∀ X (f : Z → Z → X),
              match reshape_flat A with
              | [x0] => Ok (map (f x0) [x])
              | _ => Ok (map (λ x0, f x0 x) (reshape_flat A))
              end = Ok (map (λ x0, f x0 x) (reshape_flat A))) as Hb.
    { intros X f. by destruct (reshape_flat A) as [|? [|? ?]]. }
    rewrite !Hb. cbn [mbind result_bind].
    pose proof (mask_find_right x (reshape_flat A)) as Hfind.
    destruct (list_find (λ y, y ≠ x) _) as [[idx y]|].
    + destruct Hfind as [-> Hy]. rewrite Hy. by destruct idx.
    + by rewrite Hfind.
Qed.

Lemma X8_witness :
  greater ex_1x1 (mat 1 3 [[5;5;7]]%Z) = Raise IndexError ∧
  greater (mat 2 1 [[5];[4]]%Z) ex_1x1 = Raise IndexError.
Proof.
  split.
  - by rewrite (proj1 (X8_greater_one_entry ex_1x1 (mat 1 3 [[5;5;7]]%Z) 5)).
  - by rewrite (proj2 (X8_greater_one_entry (mat 2 1 [[5];[4]]%Z) ex_1x1 5)).
Defined.

(** ** What the loop returns *)

(** X9: [maximise_matrix] raises no exception, on any array and after any
    number of iterations: the swaps it performs are always in range and the
    arrays it compares always have equally many entries. *)
Theorem X9_maximise_matrix_never_raises (fuel : nat) (M : ndarray) (e : exn) :
  maximise_matrix fuel M ≠ Some (Raise e) ∧
  maximise_matrix_log fuel M ≠ Some (Raise e).
Proof.
  assert (maximise_matrix fuel M ≠ Some (Raise e)) as H.
  { intros Hraise.
    destruct (maximise_matrix_returns M) as (out & [fuel' Hout] & _).
    apply (maximise_matrix_mono _ (fuel `max` fuel')) in Hraise; [|lia].
    apply (maximise_matrix_mono _ (fuel `max` fuel')) in Hout; [|lia].
    congruence. }
  split; [done|]. intros Hlog. apply H. unfold maximise_matrix.
  by rewrite Hlog.
Qed.

(** X10: the array that [maximise_matrix M] returns is never
    lexicographically smaller than [M].  Either [M] is already a local
    maximum, and then it is returned as it is with no swap accepted; or the
    result is strictly greater than [M] and at least one swap was
    accepted. *)
Theorem X10_result_not_smaller (M : ndarray) :
  ∃ out log,
    (∃ fuel, maximise_matrix_log fuel M = Some (Ok (out, log))) ∧
    returns M out ∧
    greater M out = Ok false ∧
    ((locally_maximal M ∧ out = M ∧ log = []) ∨
     (¬ locally_maximal M ∧ greater out M = Ok true ∧ log ≠ [])).
Proof.
  destruct (maximise_matrix_log_spec M)
    as (out & log & Hrun & Hr & Hmax & Hcase).
  assert (returns M out) as Hret.
  { eexists. unfold maximise_matrix. by rewrite Hrun. }
  exists out, log. split; [by eexists|]. split; [done|].
  assert (length (reshape_flat M) = length (reshape_flat out)) as Hlen
    by by rewrite (rearrangement_flat _ _ Hr).
  rewrite (greater_rearrangement _ _ Hr), (greater_lex M out Hlen).
  destruct Hcase as [[-> ->]|[Hlex Hlog]].
  - rewrite lex_greater_irrefl. split; [done|]. by left.
  - rewrite Hlex. split.
    + f_equal. destruct (lex_greater (reshape_flat M) _) eqn:Hlex'; [|done].
      pose proof (lex_greater_trans _ _ _ Hlex Hlex') as Hirr.
      by rewrite lex_greater_irrefl in Hirr.
    + right. split; [|done]. intros HM.
      pose proof (returns_unique _ _ _ Hret (returns_locally_maximal _ HM))
        as ->.
      by rewrite lex_greater_irrefl in Hlex.
Qed.

(** ** Local maxima have their rows and their columns in order *)

Lemma lex_greater_app_prefix p a b :
  lex_greater (p ++ a) (p ++ b) = lex_greater a b.
Proof. induction p as [|x p IH]; simpl; [done|]. by rewrite decide_True. Qed.

Lemma lex_greater_app a b x y :
  length a = length b →
  lex_greater (a ++ x) (b ++ y) =
    if decide (a = b) then lex_greater x y else lex_greater a b.
Proof.
  revert b. induction a as [|u a IH]; intros [|v b] Hlen; simplify_eq/=.
  - done.
  - destruct (decide (u = v)) as [->|Huv].
    + rewrite IH by done.
      destruct (decide (a = b)) as [->|Hab].
      * by rewrite decide_True.
      * rewrite decide_False by congruence. done.
    + rewrite decide_False by congruence. done.
Qed.

Lemma swap_list_cons_S {A} (x : A) l i j :
  swap_list (x :: l) (S i) (S j) = x :: swap_list l i j.
Proof.
  unfold swap_list. simpl. by destruct (l !! j), (l !! i).
Qed.

Lemma swap_list_cons_0 {A} (x y : A) l j :
  l !! j = Some y → swap_list (x :: l) 0 (S j) = y :: <[j := x]> l.
Proof. intros Hj. unfold swap_list. simpl. by rewrite Hj. Qed.

Lemma lex_greater_swap_entries r i j x y :
  i < j → r !! i = Some x → r !! j = Some y →
  lex_greater (swap_list r i j) r = (if decide (y = x) then false else (y >? x)%Z)
  ∧ (swap_list r i j = r ↔ y = x).
Proof.
  revert i j. induction r as [|z r IH]; intros i j Hij Hi Hj; [done|].
  destruct j as [|j]; [lia|]. destruct i as [|i]; simplify_eq/=.
  - rewrite (swap_list_cons_0 _ _ _ _ Hj). simpl. split.
    + destruct (decide (y = x)) as [->|]; [|done].
      by rewrite list_insert_id, lex_greater_irrefl.
    + split; [by intros [= -> _]|]. intros ->. by rewrite list_insert_id.
  - rewrite swap_list_cons_S. simpl. rewrite decide_True by done.
    destruct (IH i j ltac:(lia) Hi Hj) as [-> Heq]. split; [done|].
    rewrite <-Heq. split; [by intros [= ->]|by intros ->].
Qed.

Lemma lex_greater_swap_rows c d i j ri rj :
  i < j → Forall (λ r : list Z, length r = c) d →
  d !! i = Some ri → d !! j = Some rj →
  lex_greater (concat (swap_list d i j)) (concat d) = lex_greater rj ri.
Proof.
  intros Hij Hd. revert i j Hij.
  induction Hd as [|r d Hr Hd IH]; intros i j Hij Hi Hj; [done|].
  destruct j as [|j]; [lia|]. destruct i as [|i]; simplify_eq/=.
  - rewrite (swap_list_cons_0 _ _ _ _ Hj). simpl.
    rewrite lex_greater_app
      by (rewrite (proj1 (Forall_lookup _ _) Hd j rj Hj); done).
    destruct (decide (rj = ri)) as [->|]; [|done].
    by rewrite list_insert_id, !lex_greater_irrefl.
  - rewrite swap_list_cons_S. simpl. rewrite lex_greater_app_prefix.
    apply IH; [lia|done..].
Qed.

Lemma lex_greater_swap_cols c d i j :
  i < j → j < c → Forall (λ r : list Z, length r = c) d →
  lex_greater (concat (map (λ r, swap_list r i j) d)) (concat d) =
    lex_greater (omap (λ r, r !! j) d) (omap (λ r, r !! i) d).
Proof.
  intros Hij Hj. induction 1 as [|r d Hr Hd IH]; [done|].
  destruct (lookup_lt_is_Some_2 r i ltac:(lia)) as [x Hx].
  destruct (lookup_lt_is_Some_2 r j ltac:(lia)) as [y Hy].
  cbn [map concat omap list_omap]. rewrite Hx, Hy. simpl.
  rewrite lex_greater_app by by rewrite swap_list_length.
  destruct (lex_greater_swap_entries r i j x y Hij Hx Hy) as [-> Heq].
  destruct (decide (y = x)) as [->|Hne].
  - rewrite decide_True by by apply Heq. exact IH.
  - rewrite decide_False; [done|]. intros Hsw. by apply Hne, Heq.
Qed.

Section sorted.
Variable swap : ndarray → nat → nat → result ndarray.
Variable dim : ndarray → nat.
Variable before : ndarray → nat → nat → bool.

Hypothesis swap_defined :
  ∀ M i j, i < dim M → j < dim M → ∃ S, swap M i j = Ok S.
Hypothesis swap_rearrangement :
  ∀ M i j S, swap M i j = Ok S → rearrangement M S.
Hypothesis swap_comm : ∀ M i j, swap M i j = swap M j i.
Hypothesis swap_same : ∀ M i, i < dim M → swap M i i = Ok M.

Lemma no_greater_swap_sorted M :
  (∀ i j S, i < j → j < dim M → swap M i j = Ok S →
     lex_greater (reshape_flat S) (reshape_flat M) = before M j i) →
  no_greater_swap swap (dim M) M ↔
  (∀ i j, i < j → j < dim M → before M j i = false).
Proof.
  intros Hlex. split.
  - intros Hno i j Hij Hj.
    destruct (Hno i j ltac:(lia) Hj) as (S & HS & Hg).
    rewrite (greater_rearrangement _ _ (swap_rearrangement _ _ _ _ HS)) in Hg.
    rewrite <-(Hlex i j S Hij Hj HS). congruence.
  - intros Hsorted.
    assert (∀ i j, i < j → j < dim M →
              ∃ S, swap M i j = Ok S ∧ greater S M = Ok false) as Hlt.
    { intros i j Hij Hj.
      destruct (swap_defined M i j ltac:(lia) Hj) as [S HS]. exists S.
      split; [done|].
      rewrite (greater_rearrangement _ _ (swap_rearrangement _ _ _ _ HS)).
      by rewrite (Hlex i j S Hij Hj HS), Hsorted. }
    intros i j Hi Hj. destruct (Nat.lt_trichotomy i j) as [?|[->|?]].
    + by apply Hlt.
    + exists M. split; [by apply swap_same|].
      rewrite greater_lex by done. by rewrite lex_greater_irrefl.
    + rewrite swap_comm. by apply Hlt.
Qed.

End sorted.

Lemma row_lookup M i r : data M !! i = Some r → row M i = r.
Proof. unfold row. by intros ->. Qed.

Lemma locally_maximal_sorted M :
  wf M →
  locally_maximal M ↔
    (∀ i j, i < j → j < shape0 M → lex_greater (row M j) (row M i) = false) ∧
    (∀ i j, i < j → j < shape1 M →
       lex_greater (column M j) (column M i) = false).
Proof.
  intros Hwf. destruct Hwf as [Hlen Hrows]. unfold locally_maximal.
  rewrite (no_greater_swap_sorted swap_rows shape0
             (λ M j i, lex_greater (row M j) (row M i))
             swap_rows_defined swap_rows_rearrangement
             swap_rows_comm swap_rows_same).
  2:{ intros i j S Hij Hj (_ & _ & ->)%swap_rows_inv.
      destruct (lookup_lt_is_Some_2 (data M) i ltac:(lia)) as [ri Hri].
      destruct (lookup_lt_is_Some_2 (data M) j ltac:(lia)) as [rj Hrj].
      rewrite (row_lookup _ _ _ Hri), (row_lookup _ _ _ Hrj).
      by apply (lex_greater_swap_rows (shape1 M)). }
  rewrite (no_greater_swap_sorted swap_cols shape1
             (λ M j i, lex_greater (column M j) (column M i))
             swap_cols_defined swap_cols_rearrangement
             swap_cols_comm swap_cols_same).
  2:{ intros i j S Hij Hj (_ & _ & ->)%swap_cols_inv.
      by apply (lex_greater_swap_cols (shape1 M)). }
  done.
Qed.

(** X11: an array is a local maximum exactly when its rows are in
    non-increasing lexicographic order from top to bottom and its columns,
    read from top to bottom, are in non-increasing lexicographic order from
    left to right. *)
Theorem X11_locally_maximal_sorted (M : ndarray) (Hwf : wf M) :
  locally_maximal M ↔
    (∀ i j, i < j → j < shape0 M → lex_greater (row M j) (row M i) = false) ∧
    (∀ i j, i < j → j < shape1 M →
       lex_greater (column M j) (column M i) = false).
Proof. by apply locally_maximal_sorted. Qed.

Lemma X11_witness :
  locally_maximal ex_out ∧ lex_greater (row ex_out 1) (row ex_out 0) = false.
Proof.
  assert (wf ex_out) as Hwf by (split; [done|by repeat constructor]).
  assert (locally_maximal ex_out) as Hmax.
  { apply (X11_locally_maximal_sorted ex_out Hwf).
    split; intros i j Hij Hj; simpl in Hj;
      destruct j as [|[|[|j]]]; try lia;
      destruct i as [|[|i]]; try lia; done. }
  split; [done|].
  apply (proj1 (proj1 (X11_locally_maximal_sorted ex_out Hwf) Hmax) 0 1);
    simpl; lia.
Defined.

Lemma lex_greater_cons_false x y a b :
  lex_greater (y :: a) (x :: b) = false → (y ≤ x)%Z.
Proof.
  simpl. destruct (decide (y = x)) as [->|]; [lia|].
  rewrite Z.gtb_ltb, Z.ltb_ge. lia.
Qed.

(** X12: the array [out] that [maximise_matrix] returns has its rows in
    non-increasing lexicographic order and its columns in non-increasing
    lexicographic order; in particular the entries of its first row do not
    increase from left to right and the entries of its first column do not
    increase from top to bottom. *)
Theorem X12_result_sorted (M : ndarray) (Hwf : wf M) :
  ∃ out, returns M out ∧
    (∀ i j, i < j → j < shape0 out →
       lex_greater (row out j) (row out i) = false) ∧
    (∀ i j, i < j → j < shape1 out →
       lex_greater (column out j) (column out i) = false) ∧
    (∀ i j x y, i < j → entry out 0 i = Some x → entry out 0 j = Some y →
       (y ≤ x)%Z) ∧
    (∀ i j x y, i < j → entry out i 0 = Some x → entry out j 0 = Some y →
       (y ≤ x)%Z).
Proof.
  destruct (maximise_matrix_returns M) as (out & Hret & Hr & Hmax).
  pose proof (rearrangement_wf _ _ Hr Hwf) as Hwf'.
  apply (locally_maximal_sorted out Hwf') in Hmax as [Hrows Hcols].
  exists out. split; [done|]. split; [done|]. split; [done|].
  destruct Hwf' as [Hlen Hall]. split.
  - intros i j x y Hij Hx Hy. unfold entry in Hx, Hy.
    destruct (data out) as [|r0 t] eqn:Hd; [done|]. simpl in Hx, Hy.
    apply Forall_cons in Hall as [Hr0 _].
    specialize (Hcols i j Hij). unfold column in Hcols. rewrite Hd in Hcols.
    cbn [omap list_omap] in Hcols. rewrite Hx, Hy in Hcols.
    eapply lex_greater_cons_false, Hcols.
    apply lookup_lt_Some in Hy. lia.
  - intros i j x y Hij Hx Hy. unfold entry in Hx, Hy.
    destruct (data out !! i) as [ri|] eqn:Hri; [|done].
    destruct (data out !! j) as [rj|] eqn:Hrj; [|done]. simpl in Hx, Hy.
    specialize (Hrows i j Hij).
    rewrite (row_lookup _ _ _ Hri), (row_lookup _ _ _ Hrj) in Hrows.
    destruct ri as [|x' ri], rj as [|y' rj]; simplify_eq/=.
    eapply lex_greater_cons_false, Hrows.
    apply lookup_lt_Some in Hrj. lia.
Qed.

Lemma X12_witness :
  ∃ out, returns ex_in out ∧ lex_greater (row out 1) (row out 0) = false.
Proof.
  destruct (X12_result_sorted ex_in ex_in_wf) as (out & Hret & Hrows & _).
  exists out. split; [done|].
  pose proof (returns_unique _ _ _ Hret (ex_intro _ 2 eq_refl)) as ->.
  apply Hrows; simpl; lia.
Defined.

(** ** A single row or a single column is sorted *)

Lemma non_increasing_lex_max l l' :
  non_increasing l → l' ≡ₚ l → lex_greater l' l = false.
Proof.
  revert l'. induction l as [|x l IH]; intros l' Hdesc Hperm.
  { apply Permutation_nil_r in Hperm as ->. done. }
  destruct l' as [|y l']; [done|]. simpl.
  destruct (decide (y = x)) as [->|Hne].
  - apply IH; [|by apply (inj (cons x))].
    intros i j u v Hij Hu Hv. by apply (Hdesc (S i) (S j) u v ltac:(lia)).
  - assert (y ∈ x :: l) as Hin by (rewrite <-Hperm; left).
    apply elem_of_cons in Hin as [?|[k Hk]%list_elem_of_lookup]; [done|].
    pose proof (Hdesc 0 (S k) x y ltac:(lia) eq_refl Hk).
    rewrite Z.gtb_ltb, Z.ltb_ge. lia.
Qed.

Lemma concat_singletons (d : list (list Z)) :
  Forall (λ r, length r = 1) d → d = map (λ x, [x]) (concat d).
Proof.
  induction 1 as [|r d Hr _ IH]; simpl; [done|].
  destruct r as [|x [|??]]; simplify_eq/=. by f_equal.
Qed.

Lemma single_line_non_increasing M :
  wf M → shape0 M = 1 ∨ shape1 M = 1 → locally_maximal M →
  non_increasing (reshape_flat M).
Proof.
  intros Hwf Hone Hmax.
  apply (locally_maximal_sorted M Hwf) in Hmax as [Hrows Hcols].
  destruct Hwf as [Hlen Hall]. unfold reshape_flat.
  intros i j x y Hij Hx Hy. destruct Hone as [Hone|Hone].
  - destruct (data M) as [|r [|??]] eqn:Hd; simpl in *; try lia.
    rewrite app_nil_r in Hx, Hy. apply Forall_cons in Hall as [Hr _].
    specialize (Hcols i j Hij). unfold column in Hcols. rewrite Hd in Hcols.
    cbn [omap list_omap] in Hcols. rewrite Hx, Hy in Hcols.
    eapply (lex_greater_cons_false x y [] []), Hcols.
    apply lookup_lt_Some in Hy. lia.
  - rewrite Hone in Hall. pose proof (concat_singletons _ Hall) as Hd.
    assert (data M !! i = Some [x]) as Hri
      by (rewrite Hd; change (map ?f ?l) with (f <$> l);
          by rewrite list_lookup_fmap, Hx).
    assert (data M !! j = Some [y]) as Hrj
      by (rewrite Hd; change (map ?f ?l) with (f <$> l);
          by rewrite list_lookup_fmap, Hy).
    specialize (Hrows i j Hij).
    rewrite (row_lookup _ _ _ Hri), (row_lookup _ _ _ Hrj) in Hrows.
    eapply (lex_greater_cons_false x y [] []), Hrows.
    apply lookup_lt_Some in Hrj. lia.
Qed.

(** X13: on an array with a single row or a single column the loop does
    find the greatest rearrangement: the entries of the result do not
    increase along the row (or column), and no array reached from the input
    by row and column swaps is greater than the result. *)
Theorem X13_single_line_global_maximum (M : ndarray)
    (Hwf : wf M) (Hone : shape0 M = 1 ∨ shape1 M = 1) :
  ∃ out, returns M out ∧
    non_increasing (reshape_flat out) ∧
    (∀ N, rearrangement M N → greater N out = Ok false).
Proof.
  destruct (maximise_matrix_returns M) as (out & Hret & Hr & Hmax).
  pose proof (rearrangement_wf _ _ Hr Hwf) as Hwf'.
  assert (non_increasing (reshape_flat out)) as Hdesc.
  { apply single_line_non_increasing; [done| |done].
    by rewrite (shape0_rearrangement _ _ Hr), (shape1_rearrangement _ _ Hr). }
  exists out. split; [done|]. split; [done|].
  intros N HN.
  assert (reshape_flat N ≡ₚ reshape_flat out) as Hperm
    by by rewrite (rearrangement_flat _ _ HN), (rearrangement_flat _ _ Hr).
  rewrite greater_lex by by rewrite Hperm.
  f_equal. by apply non_increasing_lex_max.
Qed.

Lemma X13_witness :
  ∃ out, returns (mat 1 3 [[1;3;2]]%Z) out ∧
         greater (mat 1 3 [[3;2;1]]%Z) out = Ok false.
Proof.
  destruct (X13_single_line_global_maximum (mat 1 3 [[1;3;2]]%Z))
    as (out & Hret & _ & Hmax).
  - split; [done|]. by repeat constructor.
  - by left.
  - exists out. split; [done|]. apply Hmax.
    apply (rearr_col _ 0 1 (mat 1 3 [[3;1;2]]%Z)); [done|].
    apply (rearr_col _ 1 2 (mat 1 3 [[3;2;1]]%Z)); [done|]. constructor.
Defined.

(** ** The pairs a pass goes through *)

Lemma combinations2_seq_NoDup s n : NoDup (combinations2 (seq s n)).
Proof.
  revert s. induction n as [|n IH]; intros s; simpl; [constructor|].
  apply NoDup_app. split; [|split].
  - apply (NoDup_fmap_2 (pair s)), NoDup_seq.
  - intros [i j] (k & [= -> ->] & _)%list_elem_of_fmap
      Hin%elem_of_combinations2_seq. lia.
  - apply IH.
Qed.

Lemma combinations2_seq_length s n :
  2 * length (combinations2 (seq s n)) = n * (n - 1).
Proof.
  revert s. induction n as [|n IH]; intros s; simpl; [done|].
  rewrite length_app, length_map, length_seq.
  specialize (IH (S s)). destruct n; simpl in *; lia.
Qed.

(** X14: each of the two [for] loops of a pass goes through every pair
    [(i, j)] of indices with [i < j] exactly once, and through no other
    pair: [n (n - 1) / 2] pairs for [n] rows or columns. *)
Theorem X14_pairs_of_a_pass (n : nat) :
  (∀ i j, (i, j) ∈ combinations2 (seq 0 n) ↔ i < j ∧ j < n) ∧
  NoDup (combinations2 (seq 0 n)) ∧
  2 * length (combinations2 (seq 0 n)) = n * (n - 1).
Proof.
  split; [|split].
  - intros i j. rewrite elem_of_combinations2_seq. lia.
  - apply combinations2_seq_NoDup.
  - apply combinations2_seq_length.
Qed.

(** ** The loop over the data set *)

Lemma preprocess_loop_spec fuel X acc :
  Forall (λ M, ∃ out, maximise_matrix fuel M = Some (Ok out)) X →
  ∃ outs, preprocess_loop fuel X acc = Some (Ok (acc ++ outs)) ∧
          Forall2 (λ M out, maximise_matrix fuel M = Some (Ok out)) X outs.
Proof.
  intros HX. revert acc. induction HX as [|M X [out Hout] _ IH]; intros acc.
  { exists []. by rewrite app_nil_r. }
  simpl. rewrite Hout. destruct (IH (acc ++ [out])) as (outs & -> & Hall).
  exists (out :: outs). rewrite <-(assoc_L (++)). split; [done|].
  by constructor.
Qed.

Lemma common_fuel X :
  ∃ fuel, Forall (λ M, ∃ out, maximise_matrix fuel M = Some (Ok out)) X.
Proof.
  induction X as [|M X [fuel IH]]; [by exists 0|].
  destruct (maximise_matrix_returns M) as (out & [fuel' Hout] & _).
  exists (fuel `max` fuel'). constructor.
  - exists out. apply (maximise_matrix_mono fuel'); [done|lia].
  - eapply Forall_impl; [exact IH|]. intros N [o Ho]. exists o.
    apply (maximise_matrix_mono fuel); [done|lia].
Qed.

Lemma preprocess_spec X :
  ∃ fuel X_preprocessed,
    preprocess fuel X = Some (Ok X_preprocessed) ∧
    length X_preprocessed = length X ∧
    Forall2 (λ M out,
               returns M out ∧ rearrangement M out ∧ locally_maximal out ∧
               shape0 out = shape0 M ∧ shape1 out = shape1 M ∧
               reshape_flat out ≡ₚ reshape_flat M)
            X X_preprocessed.
Proof.
  destruct (common_fuel X) as [fuel Hfuel].
  destruct (preprocess_loop_spec fuel X [] Hfuel) as (outs & Hrun & Hall).
  exists fuel, outs. split; [done|].
  split; [symmetry; by eapply Forall2_length|].
  eapply Forall2_impl; [exact Hall|]. intros M out Hout. simpl in Hout.
  assert (returns M out) as Hret by by exists fuel.
  destruct (maximise_matrix_returns M) as (out' & Hret' & Hr & Hmax).
  pose proof (returns_unique _ _ _ Hret Hret') as ->.
  split; [done|]. split; [done|]. split; [done|].
  split; [by apply shape0_rearrangement|].
  split; [by apply shape1_rearrangement|by apply rearrangement_flat].
Qed.

(** X15: the loop over the data set raises nothing and returns, in the same
    order, one array for every matrix of [X]: a local maximum reached from
    that matrix by row and column swaps, of the same shape and with the same
    entries. *)
Theorem X15_preprocess (X : list ndarray) :
  ∃ fuel X_preprocessed,
    preprocess fuel X = Some (Ok X_preprocessed) ∧
    length X_preprocessed = length X ∧
    Forall2 (λ M out,
               returns M out ∧ rearrangement M out ∧ locally_maximal out ∧
               shape0 out = shape0 M ∧ shape1 out = shape1 M ∧
               reshape_flat out ≡ₚ reshape_flat M)
            X X_preprocessed.
Proof. apply preprocess_spec. Qed.

(** ** The feature vectors *)

Lemma chunks_concat w (ls : list (list Z)) :
  Forall (λ l, length l = w) ls → chunks w (length ls) (concat ls) = ls.
Proof.
  induction 1 as [|l ls Hl _ IH]; simpl; [done|].
  rewrite take_app_length' by done. rewrite drop_app_length' by done.
  by rewrite IH.
Qed.

Lemma length_concat_uniform w (ls : list (list Z)) :
  Forall (λ l, length l = w) ls → length (concat ls) = length ls * w.
Proof.
  induction 1 as [|l ls Hl _ IH]; simpl; [done|].
  rewrite length_app. lia.
Qed.

Lemma np_array_uniform r c X :
  Forall (λ M, shape0 M = r ∧ shape1 M = c) X →
  np_array X = Ok (concat (map reshape_flat X)).
Proof.
  intros HX. destruct X as [|M X]; [done|]. unfold np_array.
  apply Forall_cons in HX as [[H0 H1] HX].
  rewrite decide_True; [done|].
  eapply Forall_impl; [exact HX|]. intros N [? ?]. split; congruence.
Qed.

Lemma reshape_rows_uniform r c X :
  r * c ≠ 0 →
  Forall (λ M, wf M ∧ shape0 M = r ∧ shape1 M = c) X →
  reshape_rows (r * c) X = Ok (map reshape_flat X).
Proof.
  intros Hw HX. unfold reshape_rows.
  rewrite (np_array_uniform r c)
    by (eapply Forall_impl; [exact HX|]; by intros ? (_ & ? & ?)).
  cbn [mbind result_bind].
  assert (Forall (λ l, length l = r * c) (map reshape_flat X)) as Hall.
  { apply Forall_fmap. eapply Forall_impl; [exact HX|].
    intros M (Hwf & <- & <-). by apply wf_flat_length. }
  rewrite (length_concat_uniform (r * c) _ Hall).
  rewrite decide_True by (split; [done|apply Nat.Div0.mod_mul]).
  rewrite Nat.div_mul by done. by rewrite chunks_concat.
Qed.

(** X16: for a data set of matrices of one shape with 180 entries, such as
    12 x 15, the pre-processing followed by the reshape raises nothing and
    gives one feature vector of length 180 per matrix, in the same order;
    each feature vector is the row-major reading of what [maximise_matrix]
    returns on that matrix and holds the entries of the matrix,
    rearranged. *)
Theorem X16_feature_vectors (r c : nat) (X : list ndarray)
    (Hrc : r * c = 180)
    (HX : Forall (λ M, wf M ∧ shape0 M = r ∧ shape1 M = c) X) :
  ∃ fuel X_preprocessed F,
    preprocess fuel X = Some (Ok X_preprocessed) ∧
    Forall2 returns X X_preprocessed ∧
    Forall (λ out, wf out ∧ shape0 out = r ∧ shape1 out = c) X_preprocessed ∧
    features X_preprocessed = Ok F ∧
    F = map reshape_flat X_preprocessed ∧
    length F = length X ∧
    Forall2 (λ M f, length f = 180 ∧ f ≡ₚ reshape_flat M) X F.
Proof.
  destruct (preprocess_spec X) as (fuel & Xp & Hrun & Hlen & Hall).
  assert (Forall2 (λ M out, (wf out ∧ shape0 out = r ∧ shape1 out = c) ∧
                            length (reshape_flat out) = 180 ∧
                            reshape_flat out ≡ₚ reshape_flat M) X Xp) as HF.
  { clear Hrun Hlen. induction Hall as [|M out X Xp HM _ IH]; [constructor|].
    apply Forall_cons in HX as [(Hwf & H0 & H1) HX].
    constructor; [|by apply IH].
    destruct HM as (_ & Hr & _ & H0' & H1' & Hperm).
    split; [|split; [|done]].
    - split; [by eapply rearrangement_wf|]. split; congruence.
    - rewrite Hperm, wf_flat_length by done. by rewrite H0, H1. }
  assert (Forall (λ out, wf out ∧ shape0 out = r ∧ shape1 out = c) Xp) as HXp.
  { eapply Forall2_Forall_r; [exact HF|].
    apply Forall_true. by intros ? ? [? _]. }
  exists fuel, Xp, (map reshape_flat Xp). split; [done|].
  split; [eapply Forall2_impl; [exact Hall|]; by intros ? ? [? _]|].
  split; [done|]. split.
  - unfold features. rewrite <-Hrc.
    apply reshape_rows_uniform; [lia|done].
  - split; [done|]. split; [by rewrite length_map|].
    apply Forall2_fmap_r. eapply Forall2_impl; [exact HF|].
    by intros ? ? (_ & ? & ?).
Qed.

Lemma X16_witness :
  ∃ fuel f1 f2,
    (preprocess fuel [ex_12x15_a; ex_12x15_b] ≫= λ r, Some (r ≫= features))
      = Some (Ok [f1; f2]) ∧
    length f1 = 180 ∧ f1 ≡ₚ reshape_flat ex_12x15_a ∧
    lex_greater f1 (reshape_flat ex_12x15_a) = true ∧
    length f2 = 180 ∧ f2 ≡ₚ reshape_flat ex_12x15_b.
Proof.
  destruct (X16_feature_vectors 12 15 [ex_12x15_a; ex_12x15_b])
    as (fuel & Xp & F & Hrun & Hret & _ & HF & -> & _ & Hall).
  - done.
  - assert (∀ f, wf (mat_of 12 15 f)) as Hwf.
    { intros f. split; [done|]. by repeat constructor. }
    by repeat constructor.
  - destruct Xp as [|o1 [|o2 [|??]]];
      try (by apply Forall2_length in Hret).
    apply Forall2_cons in Hall as [[Hl1 Hp1] Hall].
    apply Forall2_cons in Hall as [[Hl2 Hp2] _].
    apply Forall2_cons in Hret as [Hret1 _].
    exists fuel, (reshape_flat o1), (reshape_flat o2).
    split; [rewrite Hrun; simpl; by rewrite HF|].
    split; [done|]. split; [done|]. split; [|done].
    destruct (maximise_matrix_log_spec ex_12x15_a)
      as (out & log & Hrun1 & _ & Hmax & Hcase).
    assert (returns ex_12x15_a out) as Hout
      by (eexists; unfold maximise_matrix; by rewrite Hrun1).
    pose proof (returns_unique _ _ _ Hret1 Hout) as ->.
    destruct Hcase as [[-> _]|[Hlex _]]; [|done].
    destruct (proj1 Hmax 0 1) as (S & HS & Hg); [simpl; lia..|].
    apply swap_rows_inv in HS as (_ & _ & ->).
    by vm_compute in Hg.
Defined.

(** ** The batches of an epoch *)

Lemma range_covers stop step :
  step ≠ 0 → stop ≤ (stop + step - 1) `div` step * step.
Proof.
  intros Hstep.
  pose proof (Nat.div_mod_eq (stop + step - 1) step).
  pose proof (Nat.mod_upper_bound (stop + step - 1) step Hstep). lia.
Qed.

Lemma range_last_start stop step k :
  step ≠ 0 → k < (stop + step - 1) `div` step → k * step < stop.
Proof.
  intros Hstep Hk.
  pose proof (Nat.div_mod_eq (stop + step - 1) step).
  assert (S k * step ≤ (stop + step - 1) `div` step * step)
    by (apply Nat.mul_le_mono_r; lia).
  lia.
Qed.

Lemma take_drop_concat {A} (b m : nat) (l : list A) :
  length l ≤ m * b →
  concat ((λ k, take b (drop (k * b) l)) <$> seq 0 m) = l.
Proof.
  revert l. induction m as [|m IH]; intros l Hlen.
  { destruct l; [done|]. simpl in Hlen. lia. }
  cbn [seq fmap list_fmap concat]. rewrite <-fmap_S_seq, <-list_fmap_compose.
  rewrite (list_fmap_ext _ (λ k, take b (drop (k * b) (drop b l)))).
  - rewrite IH by (rewrite length_drop; lia). simpl. apply take_drop.
  - intros _ k _. simpl. rewrite drop_drop. do 2 f_equal; lia.
Qed.

Lemma slices_concat {A} (b m : nat) (l : list A) :
  length l ≤ m * b →
  concat ((λ i, slice l i (i + b)) <$> ((λ k, k * b) <$> seq 0 m)) = l.
Proof.
  intros Hlen. rewrite <-list_fmap_compose.
  rewrite (list_fmap_ext _ (λ k, take b (drop (k * b) l))).
  - by apply take_drop_concat.
  - intros _ k _. simpl. unfold slice. f_equal. lia.
Qed.

(** X17: in one epoch the training loop cuts the data into consecutive
    batches that cover it exactly once and in order: joined together the
    [Xbatch]es give [X] and the [ybatch]es give [y]; every batch holds
    between 1 and [batch_size] samples, and as many targets as samples;
    there are ceil(len(X) / batch_size) batches.  A batch size of zero
    raises [ValueError]. *)
Theorem X17_epoch_batches {A B} (X : list A) (y : list B) (batch_size : nat)
    (Hlen : length y = length X) :
  (batch_size = 0 → epoch_batches X y batch_size = Raise ValueError) ∧
  (batch_size ≠ 0 →
   ∃ bs, epoch_batches X y batch_size = Ok bs ∧
     concat (map fst bs) = X ∧ concat (map snd bs) = y ∧
     Forall (λ p, 0 < length p.1 ∧ length p.1 ≤ batch_size ∧
                  length p.2 = length p.1) bs ∧
     length bs = (length X + batch_size - 1) `div` batch_size).
Proof.
  unfold epoch_batches, py_range_step. split.
  { intros ->. done. }
  intros Hb. rewrite decide_False by done. cbn [mbind result_bind].
  eexists. split; [done|].
  change (map ?f ?l) with (f <$> l).
  split; [|split; [|split]].
  - rewrite <-list_fmap_compose. apply (slices_concat batch_size).
    apply range_covers, Hb.
  - rewrite <-list_fmap_compose. apply (slices_concat batch_size).
    rewrite Hlen. apply range_covers, Hb.
  - apply Forall_fmap, Forall_fmap, Forall_forall.
    intros k Hk%elem_of_seq. simpl.
    pose proof (range_last_start (length X) batch_size k Hb ltac:(lia)).
    unfold slice. rewrite !length_take, !length_drop. lia.
  - by rewrite !length_fmap, length_seq.
Qed.

Lemma X17_witness :
  epoch_batches [1; 2; 3; 4; 5] [10; 20; 30; 40; 50] 2
  = Ok [([1; 2], [10; 20]); ([3; 4], [30; 40]); ([5], [50])].
Proof.
  destruct (X17_epoch_batches [1; 2; 3; 4; 5] [10; 20; 30; 40; 50] 2 eq_refl)
    as [_ H].
  destruct (H ltac:(done)) as (bs & Hrun & _). done.
Defined.

(** ** Nothing to swap *)

(** X18: an array with at most one row and at most one column, a 1 x 1
    matrix in particular, offers no pair of rows and no pair of columns; the
    loop returns it unchanged in its first iteration, having compared
    nothing and accepted no swap. *)
Theorem X18_no_pairs (M : ndarray) (fuel : nat)
    (Hrows : shape0 M ≤ 1) (Hcols : shape1 M ≤ 1) :
  combinations2 (seq 0 (shape0 M)) = [] ∧
  combinations2 (seq 0 (shape1 M)) = [] ∧
  maximise_matrix_log (S fuel) M = Some (Ok (M, [])) ∧
  maximise_matrix (S fuel) M = Some (Ok M).
Proof.
  unfold maximise_matrix, maximise_matrix_log.
  destruct (shape0 M) as [|[|?]], (shape1 M) as [|[|?]]; try lia; done.
Qed.

Lemma X18_witness : maximise_matrix 1 ex_1x1 = Some (Ok ex_1x1).
Proof. apply (X18_no_pairs ex_1x1 0); simpl; lia. Defined.
